(** * remove-white-edges: the pixel filter of [scripts/remove-white-edges.py]

    A shallow embedding of the script: Python integers are [Z], the
    RGBA buffer is a list of pixels addressed by [y * width + x], Python
    exceptions are an error monad, and the two floating-point expressions
    of the classification ([(r + g + b) / 3] and [threshold * 0.85]) are
    evaluated in an exact model of IEEE-754 binary64 arithmetic. *)

From Stdlib Require Import ZArith QArith Lia List Bool.
From stdpp Require Import base list gmap strings.

Local Open Scope Z_scope.

(** ** Python exceptions and the error monad *)

Inductive exn : Type :=
  | OverflowError        (* int too large to convert to float *)
  | ZeroDivisionError    (* division by zero *)
  | IndexError           (* pixel access out of range *)
  | FileNotFoundError    (* open() of a missing path *)
  | ValueError           (* int() of a malformed literal *)
  | UnicodeEncodeError   (* print() on a stdout that cannot encode the text *)
  | LibraryError.        (* any other exception raised inside PIL *)

Inductive result (A : Type) : Type :=
  | Ok (a : A)
  | Raise (e : exn).

Arguments Ok {A} a.
Arguments Raise {A} e.

Definition bind {A B : Type} (m : result A) (k : A -> result B) : result B :=
  match m with
  | Ok a => k a
  | Raise e => Raise e
  end.

Declare Scope py_scope.
Delimit Scope py_scope with py.
Notation "'do' x <- m ; k" := (bind m (fun x => k))
  (at level 10, x name, m at level 100, k at level 200) : py_scope.
Notation "'do' ' p <- m ; k" := (bind m (fun p => k))
  (at level 10, p pattern, m at level 100, k at level 200) : py_scope.
Local Open Scope py_scope.

Definition succeeds {A : Type} (m : result A) : Prop := exists a, m = Ok a.

(** [for x in xs: st = body(x, st)], leaving at the first exception. *)
Fixpoint for_each {I S : Type} (body : I -> S -> result S) (xs : list I) (st : S)
  : result S :=
  match xs with
  | [] => Ok st
  | x :: xs' => do st' <- body x st; for_each body xs' st'
  end.

(** Python's [range(n)]. *)
Definition range (n : nat) : list nat := seq 0 n.

(** ** Binary64 floating point

    Every finite double is an integer multiple of [2^-1074], the smallest
    subnormal.  A finite float is stored as that integer (its value in
    _units_ of [2^-1074]); a double is then an integer [m * 2^sh] with
    [|m| <= 2^53], and overflow starts at [2^1024], that is [2^2098] units.
    The sign of zero is not kept: nothing below observes it. *)
Module Float.

Definition unit_exp : Z := 1074.
Definition one : Z := 2 ^ unit_exp.
Definition overflow_threshold : Z := 2 ^ (1024 + unit_exp).

Inductive float : Type :=
  | Finite (units : Z)
  | Inf (negative : bool)
  | NaN.

(** Round the rational [n / d] (in units, [0 < d]) to the nearest value
    with a 53-bit significand, ties to even.  Below [2^53] units
    (subnormals and the first binade) the spacing is one unit. *)
Definition round_ne (n d : Z) : Z :=
  let a := Z.abs n in
  let q := a / d in
  let sh := Z.max 0 (Z.log2 q - 52) in
  let d' := d * 2 ^ sh in
  let m := a / d' in
  let r := a mod d' in
  let m' := if 2 * r <? d' then m
            else if d' <? 2 * r then m + 1
            else if Z.even m then m else m + 1 in
  Z.sgn n * (m' * 2 ^ sh).

(** The result of an arithmetic operation: IEEE overflow gives an
    infinity. *)
Definition of_rounded (u : Z) : float :=
  if overflow_threshold <=? Z.abs u then Inf (u <? 0) else Finite u.

(** The literal [0.85], correctly rounded by the parser. *)
Definition lit_0_85 : float := of_rounded (round_ne (85 * one) 100).

(** [float(n)] for a Python int: correctly rounded, and OverflowError
    where IEEE arithmetic would give an infinity. *)
Definition of_int (n : Z) : result float :=
  let u := round_ne (n * one) 1 in
  if overflow_threshold <=? Z.abs u then Raise OverflowError else Ok (Finite u).

(** [n / d] on Python ints (true division): the correctly rounded
    quotient. *)
Definition int_truediv (n d : Z) : result float :=
  if d =? 0 then Raise ZeroDivisionError
  else
    let u := round_ne (Z.sgn d * n * one) (Z.abs d) in
    if overflow_threshold <=? Z.abs u then Raise OverflowError else Ok (Finite u).

(** [x * y] on floats. *)
Definition mul (x y : float) : float :=
  match x, y with
  | NaN, _ | _, NaN => NaN
  | Finite a, Finite b => of_rounded (round_ne (a * b) one)
  | Inf s, Finite b | Finite b, Inf s =>
      if b =? 0 then NaN else Inf (xorb s (b <? 0))
  | Inf s, Inf t => Inf (xorb s t)
  end.

(** [x >= y] on floats. *)
Definition ge (x y : float) : bool :=
  match x, y with
  | NaN, _ | _, NaN => false
  | Finite a, Finite b => b <=? a
  | Inf false, _ => true
  | Inf true, Inf true => true
  | Inf true, _ => false
  | Finite _, Inf s => s
  end.

(** [x >= n] for a float and a Python int: CPython compares the exact
    values, without converting the int. *)
Definition ge_int (x : float) (n : Z) : bool :=
  match x with
  | NaN => false
  | Finite a => n * one <=? a
  | Inf s => negb s
  end.

(** [int * float]: the int is converted first. *)
Definition int_mul (n : Z) (y : float) : result float :=
  do x <- of_int n; Ok (mul x y).

(** The ints from [int_limit] on do not convert: [float(n)] raises. *)
Definition int_limit : Z := 2 ^ 1024 - 2 ^ 970.

(** The exponent of the spacing at [n / d], and the significand that
    [round_ne] picks. *)
Definition spacing (n d : Z) : Z := Z.max 0 (Z.log2 (n / d) - 52).

Definition significand (n d : Z) : Z :=
  let d' := d * 2 ^ spacing n d in
  let m := n / d' in
  let r := n mod d' in
  if 2 * r <? d' then m
  else if d' <? 2 * r then m + 1
  else if Z.even m then m else m + 1.

(** The literal [0.85] in units, its distance [gap / 20] below 0.85,
    and a bound on the rounding errors of the values that occur. *)
Definition c085 : Z := 7656119366529843 * 2 ^ 1021.
Definition gap : Z := 2 ^ 1023.
Definition tiny : Z := 2 ^ 1030.

End Float.

(** ** Pixels and images *)

(** One RGBA pixel as PIL hands it out: a 4-tuple of ints. *)
Record pixel : Type := Pixel { red : Z; green : Z; blue : Z; alpha : Z }.

#[global] Instance pixel_eq_dec : EqDecision pixel.
Proof. solve_decision. Defined.

(** The channels of an RGBA image are 8-bit. *)
Definition channel (c : Z) : Prop := 0 <= c <= 255.

Definition wf_pixel (p : pixel) : Prop :=
  channel (red p) /\ channel (green p) /\ channel (blue p) /\ channel (alpha p).

(** [(0, 0, 0, 0)]: fully transparent. *)
Definition transparent : pixel := Pixel 0 0 0 0.

(** An image in mode RGBA: [img.size] and the buffer behind [img.load()],
    row after row, so that [pixels[x, y]] is entry [y * width + x]. *)
Record image : Type := Image { width : nat; height : nat; pixels : list pixel }.

Definition offset (w x y : nat) : nat := (y * w + x)%nat.

Definition pixel_at (img : image) (x y : nat) : option pixel :=
  pixels img !! offset (width img) x y.

Definition wf_image (img : image) : Prop :=
  length (pixels img) = (width img * height img)%nat /\ Forall wf_pixel (pixels img).

(** ** The classification (lines 33-44) *)

Inductive rule : Type := HardWhite | AverageWhite | TranslucentBright.

#[global] Instance rule_eq_dec : EqDecision rule.
Proof. solve_decision. Defined.

Section Classify.
Variable threshold : Z.

(** line 33: [r >= threshold and g >= threshold and b >= threshold] *)
Definition hard_white (p : pixel) : bool :=
  (threshold <=? red p) && (threshold <=? green p) && (threshold <=? blue p).

(** line 38: [(r + g + b) / 3 >= threshold] *)
Definition average_white (p : pixel) : result bool :=
  do avg <- Float.int_truediv (red p + green p + blue p) 3;
  Ok (Float.ge_int avg threshold).

(** line 42: [a < 255 and (r + g + b) / 3 >= threshold * 0.85];
    [and] does not evaluate its right operand when the left one is
    false. *)
Definition translucent_bright (p : pixel) : result bool :=
  if alpha p <? 255 then
    do avg <- Float.int_truediv (red p + green p + blue p) 3;
    do bound <- Float.int_mul threshold Float.lit_0_85;
    Ok (Float.ge avg bound)
  else Ok false.

(** The [if]/[elif]/[elif] chain: the branch that is taken, if any. *)
Definition classify (p : pixel) : result (option rule) :=
  if hard_white p then Ok (Some HardWhite)
  else
    do avg_hit <- average_white p;
    if avg_hit : bool then Ok (Some AverageWhite)
    else
      do dim_hit <- translucent_bright p;
      if dim_hit : bool then Ok (Some TranslucentBright)
      else Ok None.

(** The body of the inner loop, lines 30-44, on the buffer and the
    counter. *)
Definition body (w y x : nat) (st : list pixel * Z) : result (list pixel * Z) :=
  let '(buf, transparent_count) := st in
  match buf !! offset w x y with
  | None => Raise IndexError
  | Some p =>
      do taken <- classify p;
      match taken with
      | Some _ => Ok (<[offset w x y := transparent]> buf, transparent_count + 1)
      | None => Ok (buf, transparent_count)
      end
  end.

(** Lines 27-44: the two nested loops. *)
Definition scan (img : image) : result (list pixel * Z) :=
  for_each
    (fun y st => for_each (fun x st => body (width img) y x st) (range (width img)) st)
    (range (height img))
    (pixels img, 0).

End Classify.

(** Lines 22-50 on the decoded image: the image that is saved and the
    value that is returned.  An exception inside the loop leaves before
    [img.save], so nothing is saved. *)
Definition remove_white_edges (img : image) (threshold : Z) : result (image * Z) :=
  do '(buf, transparent_count) <- scan threshold img;
  Ok (Image (width img) (height img) buf, transparent_count).

(** The 2x2 image of scenario A. *)
Definition square : image :=
  Image 2 2 [Pixel 255 255 255 255; Pixel 250 250 250 255; Pixel 10 10 10 255; Pixel 0 0 0 0].

(** ** The rules as the specification words them

    Exact rational arithmetic: the mean is [(r + g + b) / 3] and the
    relaxed bound is [0.85 * T]. *)
Module Rules.

Definition mean (p : pixel) : Q := inject_Z (red p + green p + blue p) / 3.

(** Rule 1, hard white: [r >= T] and [g >= T] and [b >= T]. *)
Definition hard (T : Z) (p : pixel) : Prop :=
  T <= red p /\ T <= green p /\ T <= blue p.

(** Rule 2, average white: [(r + g + b) / 3 >= T]. *)
Definition average (T : Z) (p : pixel) : Prop :=
  (inject_Z T <= mean p)%Q.

(** Rule 3, translucent bright: [a < 255] and
    [(r + g + b) / 3 >= 0.85 * T]. *)
Definition translucent (T : Z) (p : pixel) : Prop :=
  alpha p < 255 /\ (0.85 * inject_Z T <= mean p)%Q.

Definition any (T : Z) (p : pixel) : Prop :=
  hard T p \/ average T p \/ translucent T p.

End Rules.

(** The rules are decidable; the counts below are taken with these
    decisions. *)
#[global] Instance Qle_decision (x y : Q) : Decision (x <= y)%Q.
Proof.
  destruct (Qlt_le_dec y x) as [H | H];
    [right; apply Qlt_not_le; exact H | left; exact H].
Defined.

#[global] Instance hard_decision (T : Z) (p : pixel) : Decision (Rules.hard T p).
Proof. unfold Rules.hard. apply _. Defined.

#[global] Instance average_decision (T : Z) (p : pixel) : Decision (Rules.average T p).
Proof. unfold Rules.average. apply _. Defined.

#[global] Instance translucent_decision (T : Z) (p : pixel)
  : Decision (Rules.translucent T p).
Proof. unfold Rules.translucent. apply _. Defined.

(** ** Counting *)

Fixpoint count {A : Type} (f : A -> bool) (xs : list A) : nat :=
  match xs with
  | [] => 0
  | x :: xs' => ((if f x then 1 else 0) + count f xs')%nat
  end.

(** The pixels on which the condition of line 33 is true. *)
Definition hard_white_matches (T : Z) (img : image) : nat :=
  count (hard_white T) (pixels img).

(** The pixels on which the condition of line 38 is true. *)
Definition is_average_white (T : Z) (p : pixel) : bool :=
  match average_white T p with
  | Ok b => b
  | Raise _ => false
  end.

Definition average_white_matches (T : Z) (img : image) : nat :=
  count (is_average_white T) (pixels img).

(** The pixels for which one of the three branches is taken. *)
Definition is_matched (T : Z) (p : pixel) : bool :=
  match classify T p with
  | Ok (Some _) => true
  | _ => false
  end.

Definition matched_pixels (T : Z) (img : image) : nat :=
  count (is_matched T) (pixels img).

(** The pixels of an image for which rule 2 or rule 3 holds. *)
Definition average_or_translucent_matches (T : Z) (img : image) : nat :=
  count (fun p => bool_decide (Rules.average T p \/ Rules.translucent T p)) (pixels img).

(** The positions at which two buffers differ. *)
Fixpoint differing (ps qs : list pixel) : nat :=
  match ps, qs with
  | p :: ps', q :: qs' => ((if decide (p = q) then 0 else 1) + differing ps' qs')%nat
  | _, _ => 0
  end.

Definition changed_pixels (img img' : image) : nat :=
  differing (pixels img) (pixels img').

(** ** The loops as one pass

    The same computation by recursion on the buffer; the facts below
    relate it to [scan]. *)

(** [r + g + b] *)
Definition rgb_sum (p : pixel) : Z := red p + green p + blue p.

(** The pixel stored at a position once its branch is known, and the
    increment of the counter. *)
Definition stored (p : pixel) (taken : option rule) : pixel :=
  match taken with Some _ => transparent | None => p end.

Definition counted (taken : option rule) : Z :=
  match taken with Some _ => 1 | None => 0 end.

(** The loops as one pass over the buffer. *)
Fixpoint sweep (T : Z) (ps : list pixel) : result (list pixel * Z) :=
  match ps with
  | [] => Ok ([], 0)
  | p :: ps' =>
      do taken <- classify T p;
      do '(qs, n) <- sweep T ps';
      Ok (stored p taken :: qs, counted taken + n)
  end.

(** The loop body at one index of the buffer. *)
Definition step (T : Z) (i : nat) (st : list pixel * Z) : result (list pixel * Z) :=
  let '(buf, n) := st in
  match buf !! i with
  | None => Raise IndexError
  | Some p =>
      do taken <- classify T p;
      match taken with
      | Some _ => Ok (<[i := transparent]> buf, n + 1)
      | None => Ok (buf, n)
      end
  end.

(** What one pass does to a pixel. *)
Definition rewritten (T : Z) (p q : pixel) : Prop :=
  exists taken, classify T p = Ok taken /\ q = stored p taken.

(** The pixels that were matched although they were transparent already. *)
Definition matched_transparent (T : Z) (p : pixel) : bool :=
  is_matched T p && bool_decide (p = transparent).

(** The chain with its first branch removed: what the loop would do
    without rule 1. *)
Definition classify_without_hard_white (threshold : Z) (p : pixel)
  : result (option rule) :=
  do avg_hit <- average_white threshold p;
  if avg_hit : bool then Ok (Some AverageWhite)
  else
    do dim_hit <- translucent_bright threshold p;
    if dim_hit : bool then Ok (Some TranslucentBright)
    else Ok None.

(** ** The command line (lines 52-70) *)
Module CLI.

(** What the script prints, by the line that prints it; the report of
    an uncaught exception goes to standard error. *)
Inductive message : Type :=
  | Usage                      (* line 54 *)
  | UsageExample               (* line 55 *)
  | NotFound (path : string)   (* line 63 *)
  | Failed (e : exn)           (* line 69 *)
  | Done (count : Z)           (* line 48 *)
  | Saved (path : string)      (* line 49 *)
  | Traceback (e : exn).

Record world : Type := World {
  files : gmap string (list Byte.byte);
  stdout : list message;
  stderr : list message
}.

(** An exception that nothing catches: the interpreter reports it on
    standard error and the exit status is 1. *)
Definition uncaught (e : exn) (w : world) : Z * world :=
  (1, World (files w) (stdout w) (stderr w ++ [Traceback e])).

Section Script.
(** The library calls of the script: [int(s)] on a string,
    [Image.open(path).convert("RGBA")] on the contents of the file,
    [img.save(path, "PNG", optimize=True)] with its effect on the
    files and its exception, if any, and [print(text)] on the standard
    output of the run: every line of the script has characters outside
    ASCII, and on a stdout that cannot encode a line [print] raises
    (UnicodeEncodeError) instead of writing it. *)
Variable parse_int : string -> result Z.
Variable decode : list Byte.byte -> result image.
Variable save :
  image -> string -> gmap string (list Byte.byte) ->
  gmap string (list Byte.byte) * result unit.
Variable print_raises : message -> option exn.

(** [print(text)]: the line is written, or the exception is raised and
    nothing is written. *)
Definition print (m : message) (w : world) : world * result unit :=
  match print_raises m with
  | None => (World (files w) (stdout w ++ [m]) (stderr w), Ok tt)
  | Some e => (w, Raise e)
  end.

(** The function [remove_white_edges(input_path, output_path, threshold)]
    with its files and prints.  The two prints come after [img.save]. *)
Definition remove_white_edges_at
    (input_path : string) (output_path : option string) (threshold : Z)
    (w : world) : world * result Z :=
  let output_path := default input_path output_path in
  match files w !! input_path with
  | None => (w, Raise FileNotFoundError)
  | Some data =>
      match decode data with
      | Raise e => (w, Raise e)
      | Ok img =>
          match remove_white_edges img threshold with
          | Raise e => (w, Raise e)
          | Ok (img', transparent_count) =>
              let '(fs, saved) := save img' output_path (files w) in
              let w' := World fs (stdout w) (stderr w) in
              match saved with
              | Raise e => (w', Raise e)
              | Ok _ =>
                  match print (Done transparent_count) w' with
                  | (w1, Raise e) => (w1, Raise e)
                  | (w1, Ok _) =>
                      match print (Saved output_path) w1 with
                      | (w2, Raise e) => (w2, Raise e)
                      | (w2, Ok _) => (w2, Ok transparent_count)
                      end
                  end
              end
          end
      end
  end.

(** [os.path.exists] *)
Definition exists_path (path : string) (w : world) : bool :=
  bool_decide (is_Some (files w !! path)).

(** [print(text); sys.exit(1)] outside the [try] (lines 54-56 and 63-64)
    or inside the handler (lines 69-70): an exception of [print] is not
    caught in either place. *)
Definition print_and_exit_1 (m : message) (w : world) : Z * world :=
  match print m w with
  | (w', Ok _) => (1, w')
  | (w', Raise e) => uncaught e w'
  end.

(** The [__main__] block: the exit status and the world it leaves. *)
Definition main (argv : list string) (w : world) : Z * world :=
  match argv with
  | _ :: input_path :: rest =>
      let output_path := rest !! 0%nat in
      let threshold :=
        match rest !! 1%nat with
        | Some s => parse_int s
        | None => Ok 240
        end in
      match threshold with
      | Raise e => uncaught e w
      | Ok threshold =>
          if exists_path input_path w then
            match remove_white_edges_at input_path output_path threshold w with
            | (w', Ok _) => (0, w')
            | (w', Raise e) => print_and_exit_1 (Failed e) w'
            end
          else print_and_exit_1 (NotFound input_path) w
      end
  | _ =>
      match print Usage w with
      | (w1, Raise e) => uncaught e w1
      | (w1, Ok _) => print_and_exit_1 UsageExample w1
      end
  end.

End Script.
End CLI.

(** ** Notions for the further properties *)

(** A pixel with full alpha, and an image of such pixels. *)
Definition opaque (p : pixel) : bool := 255 <=? alpha p.

Definition all_opaque (img : image) : bool := forallb opaque (pixels img).


Definition argv_output (input_path : string) (rest : list string) : string :=
  default input_path (rest !! 0%nat).

(** A [save] that leaves every path but its own as it was. *)
Definition writes_only_its_path
    (save : image -> string -> gmap string (list Byte.byte) ->
            gmap string (list Byte.byte) * result unit) : Prop :=
  forall img path fs q, q <> path -> (save img path fs).1 !! q = fs !! q.

(** A [save] that writes at every path. *)
Definition save_anywhere (img : image) (path : string)
    (fs : gmap string (list Byte.byte))
  : gmap string (list Byte.byte) * result unit :=
  (<[path := []]> fs, Ok tt).

(** * Facts *)

(** ** The float model against known bit patterns *)

Example lit_0_85_bits :
  Float.lit_0_85 = Float.Finite (7656119366529843 * 2 ^ (1074 - 53)).
Proof. vm_compute. reflexivity. Qed.

Example third_bits :
  Float.int_truediv 1 3 = Ok (Float.Finite (6004799503160661 * 2 ^ (1074 - 54))).
Proof. vm_compute. reflexivity. Qed.

Example tenth_bits :
  Float.int_truediv 1 10 = Ok (Float.Finite (7205759403792794 * 2 ^ (1074 - 56))).
Proof. vm_compute. reflexivity. Qed.

Example largest_int_that_converts :
  Float.of_int (2 ^ 1024 - 2 ^ 970 - 1) = Ok (Float.Finite ((2 ^ 53 - 1) * 2 ^ (971 + 1074)))
  /\ Float.of_int (2 ^ 1024 - 2 ^ 970) = Raise OverflowError.
Proof. split; vm_compute; reflexivity. Qed.

(** ** Rounding *)
Module FloatFacts.
Import Float.

Lemma one_pos : 0 < one.
Proof. unfold one, unit_exp. apply Z.pow_pos_nonneg; lia. Qed.

Lemma spacing_nonneg n d : 0 <= spacing n d.
Proof. unfold spacing. lia. Qed.

Lemma round_ne_nonneg n d :
  0 < d -> 0 <= n -> round_ne n d = significand n d * 2 ^ spacing n d.
Proof.
  intros Hd Hn. unfold round_ne, significand, spacing.
  rewrite (Z.abs_eq n) by lia.
  destruct (Z.eq_dec n 0) as [-> | Hne].
  - rewrite Z.div_0_l by lia. change (Z.log2 0) with 0.
    rewrite Z.max_l by lia. rewrite Z.pow_0_r, !Z.mul_1_r.
    rewrite Z.div_0_l, Zmod_0_l by lia.
    destruct (2 * 0 <? d) eqn:E; [reflexivity | lia].
  - rewrite (Z.sgn_pos n) by lia. lia.
Qed.

Lemma round_ne_opp n d : round_ne (- n) d = - round_ne n d.
Proof.
  unfold round_ne. rewrite Z.abs_opp, Z.sgn_opp. lia.
Qed.

Section OneQuotient.
Variables n d : Z.
Hypothesis Hd : 0 < d.
Hypothesis Hn : 0 <= n.

Let e := spacing n d.
Let d' := d * 2 ^ e.
Let m := n / d'.
Let r := n mod d'.

Lemma scaled_pos : 0 < d'.
Proof.
  unfold d'. apply Z.mul_pos_pos; [lia|].
  apply Z.pow_pos_nonneg; [lia | apply spacing_nonneg].
Qed.

Lemma quotient_split : n = d' * m + r /\ 0 <= r < d'.
Proof.
  pose proof scaled_pos. unfold m, r. split.
  - apply Z.div_mod. lia.
  - apply Z.mod_pos_bound. lia.
Qed.

Lemma quotient_nonneg : 0 <= m.
Proof. pose proof scaled_pos. unfold m. apply Z.div_pos; lia. Qed.

(** The significand is the floor or the floor plus one, whichever
    is within half a spacing. *)
Lemma significand_near :
  (significand n d = m \/ significand n d = m + 1)
  /\ 2 * Z.abs (d' * significand n d - n) <= d'.
Proof.
  destruct quotient_split as [Hsplit Hr].
  unfold significand. fold e. fold d'. fold m. fold r.
  destruct (2 * r <? d') eqn:E1; [split; [auto | lia]|].
  destruct (d' <? 2 * r) eqn:E2; [split; [auto | lia]|].
  destruct (Z.even m); split; auto; lia.
Qed.

Lemma quotient_below : m < 2 ^ 53.
Proof.
  pose proof scaled_pos as Hd'.
  assert (He : 0 <= e) by apply spacing_nonneg.
  assert (Hpe : 0 < 2 ^ e) by (apply Z.pow_pos_nonneg; lia).
  unfold m, d'. rewrite <- Z.div_div by lia.
  set (q := n / d).
  assert (Hq0 : 0 <= q) by (apply Z.div_pos; lia).
  apply Z.div_lt_upper_bound; [lia|].
  rewrite <- Z.pow_add_r by lia.
  destruct (Z.eq_dec q 0) as [Hz | Hnz].
  - rewrite Hz. apply Z.pow_pos_nonneg; lia.
  - assert (Hlog : Z.log2 q < e + 53).
    { unfold e, spacing. fold q. lia. }
    apply Z.log2_lt_pow2; lia.
Qed.

Lemma quotient_above : 0 < e -> 2 ^ 52 <= m.
Proof.
  intros He.
  assert (Hpe : 0 < 2 ^ e) by (apply Z.pow_pos_nonneg; lia).
  unfold m, d'. rewrite <- Z.div_div by lia.
  set (q := n / d).
  assert (Hlog : Z.log2 q = e + 52).
  { unfold e, spacing in *. fold q in He |- *. lia. }
  assert (Hq0 : 0 < q).
  { destruct (Z.log2_null q) as [_ H0]. destruct (Z_lt_le_dec 0 q); [assumption|].
    specialize (H0 ltac:(lia)). lia. }
  apply Z.div_le_lower_bound; [lia|].
  rewrite Z.mul_comm, <- Z.pow_add_r by lia.
  replace (52 + e) with (Z.log2 q) by lia.
  apply Z.log2_spec; lia.
Qed.

(** Rounding is within half a spacing of the quotient. *)
Lemma round_ne_error : 2 * Z.abs (d * round_ne n d - n) <= d * 2 ^ e.
Proof.
  rewrite round_ne_nonneg by assumption. fold e.
  destruct significand_near as [_ H]. fold d'.
  replace (d * (significand n d * 2 ^ e)) with (d' * significand n d)
    by (unfold d'; ring).
  exact H.
Qed.

Lemma round_ne_below : round_ne n d <= 2 ^ (53 + e).
Proof.
  rewrite round_ne_nonneg by assumption. fold e.
  destruct significand_near as [Hs _].
  pose proof quotient_below.
  assert (He : 0 <= e) by apply spacing_nonneg.
  rewrite Z.pow_add_r by lia.
  apply Z.mul_le_mono_nonneg_r; [apply Z.pow_nonneg; lia | lia].
Qed.

Lemma round_ne_above : 0 < e -> 2 ^ (52 + e) <= round_ne n d.
Proof.
  intros He.
  rewrite round_ne_nonneg by assumption. fold e.
  destruct significand_near as [Hs _].
  pose proof (quotient_above He).
  rewrite Z.pow_add_r by lia.
  apply Z.mul_le_mono_nonneg_r; [apply Z.pow_nonneg; lia | lia].
Qed.

End OneQuotient.

Lemma spacing_mono d n1 n2 :
  0 < d -> 0 <= n1 <= n2 -> spacing n1 d <= spacing n2 d.
Proof.
  intros Hd Hn. unfold spacing.
  assert (n1 / d <= n2 / d) by (apply Z.div_le_mono; lia).
  assert (Z.log2 (n1 / d) <= Z.log2 (n2 / d)) by (apply Z.log2_le_mono; assumption).
  lia.
Qed.

(** Rounding is monotone. *)
Lemma round_ne_mono d n1 n2 :
  0 < d -> 0 <= n1 <= n2 -> round_ne n1 d <= round_ne n2 d.
Proof.
  intros Hd Hn.
  pose proof (spacing_mono d n1 n2 Hd Hn) as Hsp.
  pose proof (spacing_nonneg n1 d) as He1.
  destruct (Z.eq_dec (spacing n1 d) (spacing n2 d)) as [Heq | Hne].
  - (* same binade: compare the significands *)
    rewrite !round_ne_nonneg by lia. rewrite Heq.
    apply Z.mul_le_mono_nonneg_r; [apply Z.pow_nonneg; lia|].
    pose proof (scaled_pos n2 d Hd) as Hd'.
    destruct (quotient_split n1 d Hd) as [Hs1 Hr1].
    destruct (quotient_split n2 d Hd) as [Hs2 Hr2].
    rewrite Heq in Hs1, Hr1.
    unfold significand. rewrite Heq.
    set (d' := d * 2 ^ spacing n2 d) in *.
    assert (Hm : n1 / d' <= n2 / d') by (apply Z.div_le_mono; lia).
    set (m1 := n1 / d') in *. set (m2 := n2 / d') in *.
    set (r1 := n1 mod d') in *. set (r2 := n2 mod d') in *.
    destruct (Z.eq_dec m1 m2) as [Hmm | Hmm].
    + assert (r1 <= r2) by nia.
      rewrite <- Hmm.
      destruct (2 * r1 <? d') eqn:A1; destruct (2 * r2 <? d') eqn:A2;
        destruct (d' <? 2 * r1) eqn:B1; destruct (d' <? 2 * r2) eqn:B2;
        destruct (Z.even m1); lia.
    + destruct (2 * r1 <? d'); destruct (2 * r2 <? d');
        destruct (d' <? 2 * r1); destruct (d' <? 2 * r2);
        destruct (Z.even m1); destruct (Z.even m2); lia.
  - (* a lower binade rounds to at most the least value of a higher one *)
    assert (Hlt : spacing n1 d < spacing n2 d) by lia.
    pose proof (round_ne_below n1 d Hd ltac:(lia)) as Hb.
    pose proof (round_ne_above n2 d Hd ltac:(lia) ltac:(lia)) as Ha.
    assert (2 ^ (53 + spacing n1 d) <= 2 ^ (52 + spacing n2 d))
      by (apply Z.pow_le_mono_r; lia).
    lia.
Qed.

(** A value that already has a 53-bit significand rounds to itself. *)
Lemma round_ne_exact d v :
  0 < d -> 0 <= v -> v mod 2 ^ Z.max 0 (Z.log2 v - 52) = 0 ->
  round_ne (d * v) d = v.
Proof.
  intros Hd Hv Hmod.
  rewrite round_ne_nonneg by nia.
  unfold significand, spacing.
  replace (d * v / d) with v by (rewrite Z.mul_comm, Z.div_mul; lia).
  set (e := Z.max 0 (Z.log2 v - 52)) in *.
  assert (Hpe : 0 < 2 ^ e) by (apply Z.pow_pos_nonneg; unfold e; lia).
  rewrite Z.div_mul_cancel_l by lia.
  rewrite Z.mul_mod_distr_l by lia.
  rewrite Hmod, Z.mul_0_r.
  assert (Hlt : (2 * 0 <? d * 2 ^ e) = true) by (apply Z.ltb_lt; nia).
  rewrite Hlt.
  apply Z.div_exact in Hmod; lia.
Qed.

Lemma round_ne_float d k j :
  0 < d -> 0 <= k < 2 ^ 53 -> 0 <= j -> round_ne (d * (k * 2 ^ j)) d = k * 2 ^ j.
Proof.
  intros Hd Hk Hj.
  assert (Hpj : 0 < 2 ^ j) by (apply Z.pow_pos_nonneg; lia).
  apply round_ne_exact; [lia | nia |].
  set (v := k * 2 ^ j).
  assert (He : Z.max 0 (Z.log2 v - 52) <= j).
  { destruct (Z.eq_dec k 0) as [-> | Hk0].
    - unfold v. rewrite Z.mul_0_l. change (Z.log2 0) with 0. lia.
    - assert (v < 2 ^ (53 + j)) by (rewrite Z.pow_add_r by lia; unfold v; nia).
      assert (Z.log2 v < 53 + j) by (apply Z.log2_lt_pow2; [unfold v; nia | assumption]).
      lia. }
  set (e := Z.max 0 (Z.log2 v - 52)) in *.
  unfold v. replace j with ((j - e) + e) by lia.
  rewrite Z.pow_add_r by (unfold e; lia).
  rewrite Z.mul_assoc. apply Z.mod_mul.
  assert (0 < 2 ^ e) by (apply Z.pow_pos_nonneg; unfold e; lia). lia.
Qed.

Lemma round_ne_zero d : 0 < d -> round_ne 0 d = 0.
Proof.
  intros Hd. replace 0 with (d * (0 * 2 ^ 0)) at 1 by lia.
  rewrite round_ne_float; lia.
Qed.

Lemma round_ne_pos d n : 0 < d -> 0 <= n -> 0 <= round_ne n d.
Proof.
  intros Hd Hn. rewrite <- (round_ne_zero d Hd). apply round_ne_mono; lia.
Qed.

Lemma round_ne_int d k :
  0 < d -> 0 <= k < 2 ^ 53 -> round_ne (d * (k * one)) d = k * one.
Proof.
  intros Hd Hk. unfold one, unit_exp. apply round_ne_float; lia.
Qed.

Lemma spacing_below n d k :
  0 < d -> 0 <= n -> 53 <= k -> n < d * 2 ^ k -> spacing n d <= k - 53.
Proof.
  intros Hd Hn Hk Hlt. unfold spacing.
  assert (Hq : 0 <= n / d) by (apply Z.div_pos; lia).
  destruct (Z.eq_dec (n / d) 0) as [-> | Hq0].
  - change (Z.log2 0) with 0. lia.
  - assert (n / d < 2 ^ k) by (apply Z.div_lt_upper_bound; lia).
    assert (Z.log2 (n / d) < k) by (apply Z.log2_lt_pow2; lia).
    lia.
Qed.

(** *** The constants *)
Lemma lit_0_85_units : lit_0_85 = Finite c085.
Proof. vm_compute. reflexivity. Qed.

Lemma c085_gap : 20 * c085 = 17 * one - gap.
Proof. apply Z.eqb_eq. vm_compute. reflexivity. Qed.

Lemma c085_512 : 512 * c085 = 7656119366529843 * 2 ^ 1030.
Proof. apply Z.eqb_eq. vm_compute. reflexivity. Qed.

Lemma tiny_small : 0 < gap /\ 0 < tiny /\ 4096 * gap + 4096 * tiny < one.
Proof. repeat split; apply Z.ltb_lt; vm_compute; reflexivity. Qed.

Lemma tiny_pow : tiny = 2 ^ 1030.
Proof. reflexivity. Qed.

Lemma one_pow : one = 2 ^ 1074.
Proof. reflexivity. Qed.

Lemma overflow_pow : overflow_threshold = 2 ^ 2098.
Proof. reflexivity. Qed.

Lemma one_below_overflow : 1024 * one < overflow_threshold.
Proof. apply Z.ltb_lt. vm_compute. reflexivity. Qed.

Lemma scale_le a b : a <= b -> a * one <= b * one.
Proof. intros H. pose proof one_pos. nia. Qed.

(** *** [(r + g + b) / 3] *)

Lemma third_units s :
  0 <= s <= 765 ->
  exists u,
    int_truediv s 3 = Ok (Finite u)
    /\ 2 * Z.abs (3 * u - s * one) <= 3 * tiny
    /\ (s mod 3 = 0 -> 3 * u = s * one).
Proof.
  intros Hs. pose proof one_pos as H1. pose proof tiny_small as (Hg & Ht & Hsmall).
  pose proof one_below_overflow as Hov.
  unfold int_truediv. change (3 =? 0) with false. cbv iota.
  change (Z.sgn 3) with 1. change (Z.abs 3) with 3. rewrite Z.mul_1_l.
  set (u := round_ne (s * one) 3).
  assert (Hs1 : 0 <= s * one) by nia.
  assert (Hu0 : 0 <= u) by (apply round_ne_pos; lia).
  assert (Herr : 2 * Z.abs (3 * u - s * one) <= 3 * tiny).
  { pose proof (round_ne_error (s * one) 3 ltac:(lia) Hs1) as He. fold u in He.
    assert (Hsp : spacing (s * one) 3 <= 1030).
    { replace 1030 with (1083 - 53) by lia.
      apply spacing_below; try lia.
      replace 1083 with (9 + 1074) by lia. rewrite Z.pow_add_r by lia.
      rewrite <- one_pow. change (2 ^ 9) with 512. nia. }
    assert (2 ^ spacing (s * one) 3 <= tiny).
    { rewrite tiny_pow. apply Z.pow_le_mono_r; lia. }
    lia. }
  assert (Hfin : (overflow_threshold <=? Z.abs u) = false).
  { apply Z.leb_gt. pose proof (scale_le s 765 ltac:(lia)). lia. }
  rewrite Hfin. exists u. split; [reflexivity|]. split; [exact Herr|].
  intros Hmod. unfold u.
  replace (s * one) with (3 * (s / 3 * one)).
  - rewrite round_ne_int; [ring | lia |].
    split; [apply Z.div_pos; lia|].
    apply Z.le_lt_trans with 255; [|reflexivity].
    apply Z.div_le_upper_bound; lia.
  - rewrite Z.mul_assoc. f_equal. apply Z.div_exact in Hmod; lia.
Qed.

(** *** [threshold * 0.85] *)

Lemma of_int_small T :
  0 <= T < 2 ^ 53 -> of_int T = Ok (Finite (T * one)).
Proof.
  intros HT. unfold of_int. cbv zeta.
  assert (Hr : round_ne (T * one) 1 = T * one).
  { rewrite <- (round_ne_int 1 T) at 2 by lia. f_equal. lia. }
  rewrite Hr.
  pose proof one_pos. pose proof one_below_overflow.
  assert (Hfin : (overflow_threshold <=? Z.abs (T * one)) = false).
  { apply Z.leb_gt. rewrite Z.abs_eq by nia.
    apply Z.lt_le_trans with (2 ^ 53 * one); [nia|].
    rewrite overflow_pow, one_pow, <- Z.pow_add_r by lia.
    apply Z.pow_le_mono_r; lia. }
  rewrite Hfin. reflexivity.
Qed.

Lemma bound_units T :
  0 <= T <= 511 ->
  exists g,
    int_mul T lit_0_85 = Ok (Finite g)
    /\ 2 * Z.abs (g - T * c085) <= tiny
    /\ (forall k, 0 <= k < 2 ^ 53 -> T * c085 <= k * one -> g <= k * one).
Proof.
  intros HT. pose proof one_pos as H1. pose proof tiny_small as (Hg & Ht & Hsmall).
  pose proof one_below_overflow as Hov. pose proof c085_gap as Hc.
  unfold int_mul. rewrite of_int_small by (change (2 ^ 53) with 9007199254740992; lia).
  cbn [bind]. rewrite lit_0_85_units. cbn [mul].
  replace (T * one * c085) with (one * (T * c085)) by ring.
  set (x := T * c085).
  assert (Hx : 0 <= x /\ 20 * x = 17 * (T * one) - T * gap).
  { unfold x. split; [nia|]. replace (20 * (T * c085)) with (T * (20 * c085)) by ring.
    rewrite Hc. ring. }
  destruct Hx as [Hx0 Hx20].
  assert (Hx1 : 0 <= one * x) by nia.
  set (g := round_ne (one * x) one).
  assert (Hg0 : 0 <= g) by (apply round_ne_pos; lia).
  assert (Herr : 2 * Z.abs (g - x) <= tiny).
  { pose proof (round_ne_error (one * x) one H1 Hx1) as He. fold g in He.
    assert (Hsp : spacing (one * x) one <= 1030).
    { replace 1030 with (1083 - 53) by lia.
      apply spacing_below; try lia.
      replace 1083 with (9 + 1074) by lia. rewrite Z.pow_add_r by lia.
      rewrite <- one_pow. change (2 ^ 9) with 512.
      pose proof (scale_le T 511 ltac:(lia)). nia. }
    assert (2 ^ spacing (one * x) one <= tiny).
    { rewrite tiny_pow. apply Z.pow_le_mono_r; lia. }
    replace (one * g - one * x) with (one * (g - x)) in He by ring.
    rewrite Z.abs_mul, (Z.abs_eq one) in He by lia. nia. }
  assert (Hfin : (overflow_threshold <=? Z.abs g) = false).
  { apply Z.leb_gt. pose proof (scale_le T 511 ltac:(lia)). nia. }
  unfold of_rounded. rewrite Hfin. exists g. split; [reflexivity|]. split; [exact Herr|].
  intros k Hk Hle. unfold g.
  rewrite <- (round_ne_int one k) by lia.
  apply round_ne_mono; [lia|]. split; [lia|]. nia.
Qed.

Lemma of_int_ok T f : of_int T = Ok f -> f = Finite (round_ne (T * one) 1).
Proof.
  unfold of_int. cbv zeta.
  case (overflow_threshold <=? Z.abs (round_ne (T * one) 1)); congruence.
Qed.

(** From 512 on the bound is out of reach of any mean of channels. *)
Lemma bound_large T f u :
  512 <= T -> of_int T = Ok f -> u <= 256 * one -> ge (Finite u) (mul f lit_0_85) = false.
Proof.
  intros HT Hconv Hu. pose proof one_pos as H1. pose proof tiny_small as (Hg & Ht & Hsmall).
  pose proof c085_gap as Hc.
  apply of_int_ok in Hconv. subst f.
  set (uT := round_ne (T * one) 1).
  assert (HuT : 512 * one <= uT).
  { rewrite <- (round_ne_int 1 512) by (try split; lia || reflexivity).
    apply round_ne_mono; [lia|]. pose proof (scale_le 512 T HT). lia. }
  rewrite lit_0_85_units. cbn [mul].
  set (G := round_ne (uT * c085) one).
  assert (HG : 512 * c085 <= G).
  { rewrite c085_512.
    rewrite <- (round_ne_float one 7656119366529843 1030) by (try split; lia || reflexivity).
    apply round_ne_mono; [lia|]. rewrite <- c085_512.
    assert (0 <= c085) by lia. nia. }
  unfold of_rounded.
  destruct (overflow_threshold <=? Z.abs G).
  - assert (HG0 : (G <? 0) = false) by (apply Z.ltb_ge; lia).
    rewrite HG0. reflexivity.
  - cbn [ge]. apply Z.leb_gt. lia.
Qed.

(** *** The ints that convert *)

Lemma round_below_limit :
  round_ne ((int_limit - 1) * one) 1 = (2 ^ 53 - 1) * 2 ^ (971 + 1074).
Proof. apply Z.eqb_eq. vm_compute. reflexivity. Qed.

Lemma round_at_limit : round_ne (int_limit * one) 1 = overflow_threshold.
Proof. apply Z.eqb_eq. vm_compute. reflexivity. Qed.

Lemma below_overflow : (2 ^ 53 - 1) * 2 ^ (971 + 1074) < overflow_threshold.
Proof. apply Z.ltb_lt. vm_compute. reflexivity. Qed.

Lemma of_int_nonneg T :
  0 <= T ->
  of_int T = if T <? int_limit then Ok (Finite (round_ne (T * one) 1)) else Raise OverflowError.
Proof.
  intros HT. pose proof one_pos as H1. unfold of_int. cbv zeta.
  assert (H0 : 0 <= round_ne (T * one) 1) by (apply round_ne_pos; nia).
  rewrite Z.abs_eq by assumption.
  destruct (T <? int_limit) eqn:E.
  - apply Z.ltb_lt in E.
    assert (round_ne (T * one) 1 <= round_ne ((int_limit - 1) * one) 1).
    { apply round_ne_mono; [lia|]. pose proof (scale_le T (int_limit - 1) ltac:(lia)). nia. }
    rewrite round_below_limit in H. pose proof below_overflow.
    destruct (overflow_threshold <=? round_ne (T * one) 1) eqn:F; [|reflexivity].
    apply Z.leb_le in F. lia.
  - apply Z.ltb_ge in E.
    assert (round_ne (int_limit * one) 1 <= round_ne (T * one) 1).
    { apply round_ne_mono; [lia|]. pose proof (scale_le int_limit T E).
      assert (0 < int_limit) by reflexivity. nia. }
    rewrite round_at_limit in H.
    destruct (overflow_threshold <=? round_ne (T * one) 1) eqn:F; [reflexivity|].
    apply Z.leb_gt in F. lia.
Qed.

Lemma of_int_succeeds T : succeeds (of_int T) <-> - int_limit < T < int_limit.
Proof.
  assert (Hpos : forall n, 0 <= n -> succeeds (of_int n) <-> n < int_limit).
  { intros n Hn. rewrite of_int_nonneg by assumption.
    destruct (n <? int_limit) eqn:E.
    - apply Z.ltb_lt in E. split; [intros _; exact E | intros _; eexists; reflexivity].
    - apply Z.ltb_ge in E. split; [intros [a Ha]; discriminate | lia]. }
  assert (Hlim : 0 < int_limit) by reflexivity.
  destruct (Z_le_gt_dec 0 T) as [HT | HT].
  - rewrite Hpos by assumption. lia.
  - assert (Hopp : succeeds (of_int T) <-> succeeds (of_int (- T))).
    { unfold succeeds, of_int. cbv zeta.
      replace (- T * one) with (- (T * one)) by ring.
      rewrite round_ne_opp, Z.abs_opp.
      destruct (overflow_threshold <=? Z.abs (round_ne (T * one) 1));
        split; intros [a Ha]; try discriminate; eexists; reflexivity. }
    rewrite Hopp, Hpos by lia. lia.
Qed.

End FloatFacts.

(** ** The classification of one pixel *)
Module PixelFacts.
Import Float FloatFacts.

Lemma sum_range p : wf_pixel p -> 0 <= rgb_sum p <= 765.
Proof. unfold wf_pixel, channel, rgb_sum. lia. Qed.

Lemma hard_white_iff T p : hard_white T p = true <-> Rules.hard T p.
Proof.
  unfold hard_white, Rules.hard. rewrite !andb_true_iff, !Z.leb_le. tauto.
Qed.

Lemma average_iff T p : Rules.average T p <-> 3 * T <= rgb_sum p.
Proof.
  unfold Rules.average, Rules.mean, rgb_sum, Qle, Qdiv, Qmult, Qinv, inject_Z. simpl. lia.
Qed.

Lemma translucent_iff T p :
  Rules.translucent T p <-> alpha p < 255 /\ 51 * T <= 20 * rgb_sum p.
Proof.
  unfold Rules.translucent, Rules.mean, rgb_sum, Qle, Qdiv, Qmult, Qinv, inject_Z. simpl. lia.
Qed.

(** Line 38 decides the exact comparison of the mean with the
    threshold. *)
Lemma average_white_wf T p :
  wf_pixel p -> average_white T p = Ok (3 * T <=? rgb_sum p).
Proof.
  intros Hwf. pose proof (sum_range p Hwf) as Hs.
  destruct (third_units (rgb_sum p) Hs) as (u & Hdiv & Herr & Hexact).
  unfold average_white. fold (rgb_sum p). rewrite Hdiv. cbn [bind ge_int]. f_equal.
  pose proof one_pos as H1. pose proof tiny_small as (Hg & Ht & Hsmall).
  destruct (3 * T <=? rgb_sum p) eqn:E.
  - apply Z.leb_le in E. apply Z.leb_le.
    pose proof (scale_le (3 * T) (rgb_sum p) E).
    destruct (Z.eq_dec (rgb_sum p mod 3) 0) as [Hm | Hm].
    + specialize (Hexact Hm). lia.
    + assert (Hne : rgb_sum p <> T * 3) by (intros Heq; rewrite Heq, Z.mod_mul in Hm; lia).
      pose proof (scale_le (3 * T) (rgb_sum p - 1) ltac:(lia)). lia.
  - apply Z.leb_gt in E. apply Z.leb_gt.
    pose proof (scale_le (rgb_sum p + 1) (3 * T) ltac:(lia)). lia.
Qed.

(** Line 42 decides the exact comparison of the mean with 0.85 times
    the threshold, unless the threshold does not convert. *)
Lemma translucent_bright_wf T p :
  wf_pixel p -> 0 <= T ->
  translucent_bright T p =
    if alpha p <? 255 then do _ <- of_int T; Ok (51 * T <=? 20 * rgb_sum p) else Ok false.
Proof.
  intros Hwf HT. pose proof (sum_range p Hwf) as Hs.
  unfold translucent_bright. fold (rgb_sum p).
  destruct (alpha p <? 255); [|reflexivity].
  destruct (third_units (rgb_sum p) Hs) as (u & Hdiv & Herr & Hexact).
  rewrite Hdiv. cbn [bind].
  pose proof one_pos as H1. pose proof tiny_small as (Hg & Ht & Hsmall).
  destruct (Z_le_gt_dec T 511) as [Hsmall_T | Hlarge_T].
  - destruct (bound_units T ltac:(lia)) as (g & Hmul & Hgerr & Hgle).
    rewrite Hmul. rewrite of_int_small by (change (2 ^ 53) with 9007199254740992; lia).
    cbn [bind ge]. f_equal.
    assert (Hx20 : 20 * (T * c085) = 17 * (T * one) - T * gap).
    { replace (20 * (T * c085)) with (T * (20 * c085)) by ring. rewrite c085_gap. ring. }
    assert (HTg : 0 <= T * gap <= 511 * gap) by nia.
    destruct (51 * T <=? 20 * rgb_sum p) eqn:E.
    + apply Z.leb_le in E. apply Z.leb_le.
      destruct (Z.eq_dec (51 * T) (20 * rgb_sum p)) as [Heq | Hne].
      * set (j := 125 * T - 49 * rgb_sum p).
        assert (Hj : T = 20 * j /\ rgb_sum p = 51 * j) by (unfold j; lia).
        destruct Hj as [HjT Hjs].
        assert (Hu : 3 * u = rgb_sum p * one).
        { apply Hexact. rewrite Hjs. replace (51 * j) with (17 * j * 3) by ring.
          apply Z.mod_mul. lia. }
        assert (Hk : g <= 17 * j * one).
        { apply Hgle; [change (2 ^ 53) with 9007199254740992; lia|].
          rewrite HjT in Hx20 |- *. lia. }
        rewrite Hjs in Hu. lia.
      * pose proof (scale_le (51 * T) (20 * rgb_sum p - 1) ltac:(lia)). lia.
    + apply Z.leb_gt in E. apply Z.leb_gt.
      pose proof (scale_le (20 * rgb_sum p + 1) (51 * T) ltac:(lia)). lia.
  - unfold int_mul. destruct (of_int T) as [f | e] eqn:Hconv; [|reflexivity].
    pose proof (scale_le (rgb_sum p) 765 ltac:(lia)).
    cbn [bind]. rewrite (bound_large T f u) by (try assumption; lia).
    f_equal. symmetry. apply Z.leb_gt. lia.
Qed.

(** The branch taken for a pixel with 8-bit channels. *)
Lemma classify_wf T p :
  wf_pixel p ->
  classify T p =
    if hard_white T p then Ok (Some HardWhite)
    else if 3 * T <=? rgb_sum p then Ok (Some AverageWhite)
    else if alpha p <? 255 then
      do _ <- of_int T;
      Ok (if 51 * T <=? 20 * rgb_sum p then Some TranslucentBright else None)
    else Ok None.
Proof.
  intros Hwf. pose proof (sum_range p Hwf) as Hs.
  unfold classify. destruct (hard_white T p); [reflexivity|].
  rewrite average_white_wf by assumption. cbn [bind].
  destruct (3 * T <=? rgb_sum p) eqn:E; [reflexivity|].
  apply Z.leb_gt in E.
  rewrite translucent_bright_wf by (try assumption; lia).
  destruct (alpha p <? 255); [|reflexivity].
  destruct (of_int T); [|reflexivity].
  cbn [bind]. destruct (51 * T <=? 20 * rgb_sum p); reflexivity.
Qed.

Lemma any_iff T p :
  Rules.any T p <->
  hard_white T p = true \/ 3 * T <= rgb_sum p \/ (alpha p < 255 /\ 51 * T <= 20 * rgb_sum p).
Proof.
  unfold Rules.any. rewrite hard_white_iff, average_iff, translucent_iff. tauto.
Qed.

(** A branch is taken exactly when a rule holds. *)
Lemma classify_some T p :
  wf_pixel p -> (exists k, classify T p = Ok (Some k)) <-> Rules.any T p.
Proof.
  intros Hwf. pose proof (sum_range p Hwf) as Hs.
  rewrite any_iff, classify_wf by assumption.
  destruct (hard_white T p); [split; eauto|].
  destruct (3 * T <=? rgb_sum p) eqn:E2.
  { apply Z.leb_le in E2. split; eauto. }
  apply Z.leb_gt in E2.
  destruct (alpha p <? 255) eqn:E3.
  - apply Z.ltb_lt in E3.
    destruct (51 * T <=? 20 * rgb_sum p) eqn:E4.
    + apply Z.leb_le in E4.
      rewrite of_int_small by (change (2 ^ 53) with 9007199254740992; lia).
      cbn [bind]. split; eauto.
    + apply Z.leb_gt in E4. split.
      * intros [k Hk]. destruct (of_int T); cbn [bind] in Hk; discriminate.
      * intros [H | [H | H]]; [discriminate | lia | lia].
  - apply Z.ltb_ge in E3. split.
    + intros [k Hk]. discriminate.
    + intros [H | [H | H]]; [discriminate | lia | lia].
Qed.

(** Without a rule no branch is taken, if the threshold converts. *)
Lemma classify_none T p :
  wf_pixel p -> T < int_limit -> ~ Rules.any T p -> classify T p = Ok None.
Proof.
  intros Hwf Hlim Hno. pose proof (sum_range p Hwf) as Hs.
  rewrite any_iff in Hno. rewrite classify_wf by assumption.
  destruct (hard_white T p); [tauto|].
  destruct (3 * T <=? rgb_sum p) eqn:E2; [apply Z.leb_le in E2; tauto|].
  apply Z.leb_gt in E2.
  destruct (alpha p <? 255) eqn:E3; [|reflexivity].
  apply Z.ltb_lt in E3.
  rewrite of_int_nonneg by lia.
  assert (Hlt : (T <? int_limit) = true) by (apply Z.ltb_lt; assumption).
  rewrite Hlt. cbn [bind].
  destruct (51 * T <=? 20 * rgb_sum p) eqn:E4; [apply Z.leb_le in E4; tauto | reflexivity].
Qed.

(** A threshold that does not convert: every pixel is kept, and line
    42 raises as soon as it evaluates its right operand. *)
Lemma classify_overflow T p :
  wf_pixel p -> int_limit <= T ->
  classify T p = if alpha p <? 255 then Raise OverflowError else Ok None.
Proof.
  intros Hwf Hlim. pose proof (sum_range p Hwf) as Hs.
  assert (Hbig : 300 < T) by (apply Z.lt_le_trans with int_limit; [reflexivity | assumption]).
  rewrite classify_wf by assumption.
  destruct (hard_white T p) eqn:E1.
  { apply hard_white_iff in E1. destruct Hwf as (Hr & _).
    unfold Rules.hard, channel in *. lia. }
  replace (3 * T <=? rgb_sum p) with false by (symmetry; apply Z.leb_gt; lia).
  destruct (alpha p <? 255); [|reflexivity].
  rewrite of_int_nonneg by lia.
  replace (T <? int_limit) with false by (symmetry; apply Z.ltb_ge; lia).
  reflexivity.
Qed.

(** The classification never fails when the threshold converts. *)
Lemma classify_total T p :
  wf_pixel p -> T < int_limit -> exists k, classify T p = Ok k.
Proof.
  intros Hwf Hlim. pose proof (sum_range p Hwf) as Hs.
  rewrite classify_wf by assumption.
  destruct (hard_white T p); [eauto|].
  destruct (3 * T <=? rgb_sum p) eqn:E2; [eauto|].
  apply Z.leb_gt in E2.
  destruct (alpha p <? 255); [|eauto].
  rewrite of_int_nonneg by lia.
  assert (Hlt : (T <? int_limit) = true) by (apply Z.ltb_lt; assumption).
  rewrite Hlt. cbn [bind]. eauto.
Qed.

End PixelFacts.

(** ** The two loops *)
Module ScanFacts.
Import Float FloatFacts PixelFacts.

Lemma body_step T w y x st : body T w y x st = step T (offset w x y) st.
Proof. destruct st. reflexivity. Qed.

Section Loops.
Context {I S : Type}.

Lemma for_each_app (f : I -> S -> result S) xs ys st :
  for_each f (xs ++ ys) st = do st' <- for_each f xs st; for_each f ys st'.
Proof.
  revert st. induction xs as [| x xs IH]; intros st; [reflexivity|].
  cbn [for_each app]. destruct (f x st); cbn [bind]; [apply IH | reflexivity].
Qed.

Lemma for_each_ext (f g : I -> S -> result S) xs st :
  (forall x st, f x st = g x st) -> for_each f xs st = for_each g xs st.
Proof.
  intros Hfg. revert st. induction xs as [| x xs IH]; intros st; [reflexivity|].
  cbn [for_each]. rewrite Hfg. destruct (g x st); cbn [bind]; [apply IH | reflexivity].
Qed.

Lemma for_each_map {J : Type} (f : I -> S -> result S) (g : J -> I) xs st :
  for_each (fun x => f (g x)) xs st = for_each f (map g xs) st.
Proof.
  revert st. induction xs as [| x xs IH]; intros st; [reflexivity|].
  cbn [for_each map]. destruct (f (g x) st); cbn [bind]; [apply IH | reflexivity].
Qed.
End Loops.

Lemma seq_from k n : map (fun x => (k + x)%nat) (seq 0 n) = seq k n.
Proof.
  revert k. induction n as [| n IH]; intros k; [reflexivity|].
  cbn [seq map]. rewrite Nat.add_0_r. f_equal.
  rewrite <- seq_shift, map_map, <- (IH (Datatypes.S k)).
  apply map_ext. intros x. lia.
Qed.

(** The nested loops visit the offsets [0 .. height * width - 1] in
    order. *)
Lemma rows_then_columns {S : Type} (f : nat -> S -> result S) w h st :
  for_each (fun y st => for_each (fun x st => f (offset w x y) st) (range w) st)
           (range h) st
  = for_each f (range (h * w)) st.
Proof.
  unfold range. revert st. induction h as [| h IH]; intros st; [reflexivity|].
  rewrite seq_S, for_each_app, IH. cbn [Nat.add].
  replace (Datatypes.S h * w)%nat with (h * w + w)%nat by lia.
  rewrite seq_app, for_each_app. cbn [Nat.add].
  destruct (for_each f (seq 0 (h * w)) st) as [st' | e]; cbn [bind]; [|reflexivity].
  cbn [for_each]. unfold offset.
  rewrite (for_each_map f (fun x => (h * w + x)%nat)), seq_from.
  destruct (for_each f (seq (h * w) w) st'); reflexivity.
Qed.

(** One pass over the positions that are left. *)
Lemma steps_sweep T rest : forall done c,
  for_each (step T) (seq (length done) (length rest)) (done ++ rest, c)
  = do '(qs, n) <- sweep T rest; Ok (done ++ qs, c + n).
Proof.
  induction rest as [| p rest IH]; intros done c.
  - cbn. rewrite Z.add_0_r. reflexivity.
  - cbn [length seq for_each sweep]. unfold step at 1.
    rewrite list_lookup_middle by reflexivity.
    destruct (classify T p) as [taken | e]; cbn [bind]; [|reflexivity].
    assert (Hins : <[length done := transparent]> (done ++ p :: rest)
                   = done ++ transparent :: rest).
    { replace (length done) with (length done + 0)%nat at 1 by lia.
      rewrite insert_app_r. reflexivity. }
    assert (Hnext : forall q c',
      for_each (step T) (seq (Datatypes.S (length done)) (length rest))
               (done ++ q :: rest, c')
      = do '(qs, n) <- sweep T rest; Ok (done ++ q :: qs, c' + n)).
    { intros q c'. specialize (IH (done ++ [q]) c').
      rewrite length_app, <- app_assoc in IH. cbn [length app] in IH.
      rewrite Nat.add_1_r in IH. rewrite IH.
      destruct (sweep T rest) as [[qs n] | e]; cbn [bind]; [|reflexivity].
      rewrite <- app_assoc. reflexivity. }
    destruct taken as [k |]; cbn [bind stored counted].
    + rewrite Hins, Hnext.
      destruct (sweep T rest) as [[qs n] | e]; cbn [bind]; [|reflexivity].
      do 2 f_equal. lia.
    + rewrite Hnext.
      destruct (sweep T rest) as [[qs n] | e]; cbn [bind]; [|reflexivity].
      do 2 f_equal.
Qed.

Lemma scan_sweep T img :
  length (pixels img) = (width img * height img)%nat ->
  scan T img = sweep T (pixels img).
Proof.
  intros Hlen. unfold scan.
  rewrite (for_each_ext _
    (fun y st => for_each (fun x st => step T (offset (width img) x y) st)
                          (range (width img)) st)).
  2:{ intros y st. apply for_each_ext. intros x st'. apply body_step. }
  rewrite (rows_then_columns (step T)). unfold range.
  replace (height img * width img)%nat with (length (pixels img)) by lia.
  pose proof (steps_sweep T (pixels img) [] 0) as H. cbn [length app] in H.
  rewrite H. destruct (sweep T (pixels img)) as [[qs n] | e]; reflexivity.
Qed.

Lemma remove_white_edges_sweep T img :
  length (pixels img) = (width img * height img)%nat ->
  remove_white_edges img T =
    do '(qs, n) <- sweep T (pixels img); Ok (Image (width img) (height img) qs, n).
Proof.
  intros Hlen. unfold remove_white_edges. rewrite scan_sweep by assumption.
  reflexivity.
Qed.

(** *** What one pass does to each pixel *)

Lemma sweep_pixels T ps : forall qs n,
  sweep T ps = Ok (qs, n) -> Forall2 (rewritten T) ps qs.
Proof.
  induction ps as [| p ps IH]; intros qs n H; cbn [sweep] in H.
  - injection H as <- <-. constructor.
  - destruct (classify T p) as [taken | e] eqn:Hc; cbn [bind] in H; [|discriminate].
    destruct (sweep T ps) as [[qs' n'] | e]; cbn [bind] in H; [|discriminate].
    injection H as <- <-. constructor; [exists taken; auto | eapply IH; reflexivity].
Qed.

Lemma sweep_count T ps : forall qs n,
  sweep T ps = Ok (qs, n) -> n = Z.of_nat (count (is_matched T) ps).
Proof.
  induction ps as [| p ps IH]; intros qs n H; cbn [sweep] in H.
  - injection H as <- <-. reflexivity.
  - cbn [count]. unfold is_matched at 1.
    destruct (classify T p) as [taken | e]; cbn [bind] in H; [|discriminate].
    destruct (sweep T ps) as [[qs' n'] | e]; cbn [bind] in H; [|discriminate].
    injection H as <- <-. rewrite (IH qs' n' eq_refl).
    destruct taken; cbn [counted]; lia.
Qed.

Lemma sweep_total T ps :
  Forall wf_pixel ps -> T < int_limit -> succeeds (sweep T ps).
Proof.
  intros Hwf Hlim. induction Hwf as [| p ps Hp _ IH].
  - eexists. reflexivity.
  - destruct (classify_total T p Hp Hlim) as [taken Hc].
    destruct IH as [[qs n] Hs]. cbn [sweep]. rewrite Hc, Hs. eexists. reflexivity.
Qed.

Lemma rewritten_cases T p q : rewritten T p q -> q = p \/ q = transparent.
Proof. intros ([k |] & _ & ->); cbn; auto. Qed.

(** A rule can only hold for a threshold that converts. *)
Lemma any_converts T p : wf_pixel p -> Rules.any T p -> T < int_limit.
Proof.
  intros Hwf Hany. pose proof (sum_range p Hwf) as Hs.
  apply any_iff in Hany. rewrite hard_white_iff in Hany.
  assert (T <= 300).
  { destruct Hwf as (Hr & _). unfold channel, Rules.hard in *. lia. }
  apply Z.le_lt_trans with 300; [assumption | reflexivity].
Qed.

Lemma wf_transparent : wf_pixel transparent.
Proof. unfold wf_pixel, channel, transparent; cbn; lia. Qed.

(** A second classification stores what the first one stored. *)
Lemma rewritten_again T p q :
  wf_pixel p -> rewritten T p q -> rewritten T q q.
Proof.
  intros Hwf (taken & Hc & ->). destruct taken as [k |]; cbn [stored].
  - assert (Hlim : T < int_limit).
    { apply (any_converts T p Hwf). apply classify_some; eauto. }
    destruct (classify_total T transparent wf_transparent Hlim) as [k' Hk'].
    exists k'. split; [assumption|]. destruct k'; reflexivity.
  - exists None. auto.
Qed.

Lemma sweep_again T ps : forall qs n,
  Forall wf_pixel ps -> sweep T ps = Ok (qs, n) -> exists n', sweep T qs = Ok (qs, n').
Proof.
  induction ps as [| p ps IH]; intros qs n Hwf H; cbn [sweep] in H.
  - injection H as <- <-. eexists. reflexivity.
  - destruct (classify T p) as [taken | e] eqn:Hc; cbn [bind] in H; [|discriminate].
    destruct (sweep T ps) as [[qs' n'] | e] eqn:Hs; cbn [bind] in H; [|discriminate].
    injection H as <- <-. inversion Hwf as [| ? ? Hp Hps]; subst.
    destruct (IH qs' n' Hps eq_refl) as [m Hm].
    destruct (rewritten_again T p (stored p taken) Hp) as (k' & Hk' & Heq).
    { exists taken. auto. }
    cbn [sweep]. rewrite Hk', Hm. cbn [bind]. rewrite <- Heq. eexists. reflexivity.
Qed.

Lemma sweep_length T ps qs n : sweep T ps = Ok (qs, n) -> length qs = length ps.
Proof.
  intros H. apply sweep_pixels in H. symmetry. eapply Forall2_length. exact H.
Qed.

Lemma offset_in_range w h x y : (x < w)%nat -> (y < h)%nat -> (offset w x y < w * h)%nat.
Proof. unfold offset. nia. Qed.

(** *** Counting *)

Lemma count_mono {A : Type} (f g : A -> bool) xs :
  (forall x, f x = true -> g x = true) -> (count f xs <= count g xs)%nat.
Proof.
  intros Hfg. induction xs as [| x xs IH]; [reflexivity|].
  cbn [count]. specialize (Hfg x).
  destruct (f x); destruct (g x);
    first [lia | specialize (Hfg eq_refl); discriminate].
Qed.

Lemma sweep_differing T ps : forall qs n,
  sweep T ps = Ok (qs, n) ->
  n = Z.of_nat (differing ps qs) + Z.of_nat (count (matched_transparent T) ps).
Proof.
  induction ps as [| p ps IH]; intros qs n H; cbn [sweep] in H.
  - injection H as <- <-. reflexivity.
  - cbn [count differing]. unfold matched_transparent at 1, is_matched at 1.
    destruct (classify T p) as [taken | e]; cbn [bind] in H; [|discriminate].
    destruct (sweep T ps) as [[qs' n'] | e]; cbn [bind] in H; [|discriminate].
    injection H as <- <-. cbn [differing]. rewrite (IH qs' n' eq_refl).
    destruct taken as [k |]; cbn [counted stored andb].
    + destruct (decide (p = transparent)) as [-> | Hne].
      * rewrite bool_decide_eq_true_2 by reflexivity.
        destruct (decide (transparent = transparent)); [lia | congruence].
      * rewrite bool_decide_eq_false_2 by assumption.
        destruct (decide (p = transparent)); [congruence | lia].
    + destruct (decide (p = p)); [lia | congruence].
Qed.

Lemma transparent_unmatched T : 1 <= T -> is_matched T transparent = false.
Proof.
  intros HT. unfold is_matched. rewrite classify_wf by apply wf_transparent.
  unfold hard_white, rgb_sum, transparent. cbn [red green blue alpha].
  replace (T <=? 0) with false by (symmetry; apply Z.leb_gt; lia).
  replace (3 * T <=? 0 + 0 + 0) with false by (symmetry; apply Z.leb_gt; lia).
  replace (51 * T <=? 20 * (0 + 0 + 0)) with false by (symmetry; apply Z.leb_gt; lia).
  cbn. destruct (of_int T); reflexivity.
Qed.

Lemma no_matched_transparent T ps : 1 <= T -> count (matched_transparent T) ps = 0%nat.
Proof.
  intros HT. induction ps as [| p ps IH]; [reflexivity|].
  cbn [count]. rewrite IH. unfold matched_transparent.
  destruct (decide (p = transparent)) as [-> | Hne].
  - rewrite transparent_unmatched by assumption. reflexivity.
  - rewrite bool_decide_eq_false_2 by assumption. rewrite andb_false_r. reflexivity.
Qed.

End ScanFacts.

(** * The properties of the filter *)

Import PixelFacts ScanFacts.

Lemma remove_white_edges_inv img T img' n :
  length (pixels img) = (width img * height img)%nat ->
  remove_white_edges img T = Ok (img', n) ->
  exists qs, sweep T (pixels img) = Ok (qs, n)
             /\ img' = Image (width img) (height img) qs.
Proof.
  intros Hlen H. rewrite remove_white_edges_sweep in H by assumption.
  destruct (sweep T (pixels img)) as [[qs m] | e]; cbn [bind] in H; [|discriminate].
  injection H as <- <-. eauto.
Qed.

Lemma remove_white_edges_total img T :
  wf_image img -> T < Float.int_limit -> succeeds (remove_white_edges img T).
Proof.
  intros [Hlen Hwf] Hlim. rewrite remove_white_edges_sweep by assumption.
  destruct (sweep_total T (pixels img) Hwf Hlim) as [[qs n] Hs].
  rewrite Hs. eexists. reflexivity.
Qed.

Lemma differing_same ps : differing ps ps = 0%nat.
Proof.
  induction ps as [| p ps IH]; [reflexivity|].
  cbn [differing]. rewrite IH. destruct (decide (p = p)); [reflexivity | congruence].
Qed.

(** One run of the loop body.  For a pixel [(r, g, b, a)] with 8-bit
    channels and any threshold [T], the body overwrites the pixel with
    [(0, 0, 0, 0)] (and counts it) if and only if one of the three rules
    holds.  If none holds, the body leaves the buffer as it was, unless
    the threshold does not convert to a float and [a < 255]: there line 42
    raises OverflowError, again without touching the buffer. *)
Lemma body_zeroes_iff_rule (T : Z) (w x y : nat) (buf : list pixel) (n : Z) (p : pixel) :
  wf_pixel p ->
  buf !! offset w x y = Some p ->
  (body T w y x (buf, n) = Ok (<[offset w x y := transparent]> buf, n + 1)
   <-> Rules.any T p)
  /\ (~ Rules.any T p ->
      body T w y x (buf, n)
      = if (Float.int_limit <=? T) && (alpha p <? 255) then Raise OverflowError
        else Ok (buf, n)).
Proof.
  intros Hwf Hp. unfold body. rewrite Hp. split.
  - split.
    + intros H. apply classify_some; [assumption|].
      destruct (classify T p) as [[k |] | e]; cbn [bind] in H.
      * eauto.
      * injection H as _ Hn. lia.
      * discriminate.
    + intros Hany. apply classify_some in Hany; [|assumption].
      destruct Hany as [k Hk]. rewrite Hk. reflexivity.
  - intros Hno. destruct (Float.int_limit <=? T) eqn:E; cbn [andb].
    + apply Z.leb_le in E. rewrite (classify_overflow T p) by assumption.
      destruct (alpha p <? 255); reflexivity.
    + apply Z.leb_gt in E. rewrite classify_none by assumption. reflexivity.
Qed.

Lemma body_on_translucent_pixel :
  (body 240 1 0 0 ([Pixel 230 230 230 100], 0)
   = Ok (<[offset 1 0 0 := transparent]> [Pixel 230 230 230 100], 0 + 1)
   <-> Rules.any 240 (Pixel 230 230 230 100))
  /\ (~ Rules.any 240 (Pixel 230 230 230 100) ->
      body 240 1 0 0 ([Pixel 230 230 230 100], 0)
      = if (Float.int_limit <=? 240) && (alpha (Pixel 230 230 230 100) <? 255)
        then Raise OverflowError
        else Ok ([Pixel 230 230 230 100], 0)).
Proof.
  apply (body_zeroes_iff_rule 240 1 0 0 [Pixel 230 230 230 100] 0 (Pixel 230 230 230 100)).
  - unfold wf_pixel, channel. simpl. lia.
  - reflexivity.
Defined.

(** C2. Whenever the filter returns an image, it has the dimensions of
    the input and each of its pixels is either the input pixel at that
    position, equal in all four channels, or exactly [(0, 0, 0, 0)]; and
    the filter does return on every RGBA image for every threshold that
    converts to a float. *)
Theorem untouched_or_transparent (img : image) (T : Z) :
  wf_image img ->
  (T < Float.int_limit -> succeeds (remove_white_edges img T))
  /\ forall img' n,
       remove_white_edges img T = Ok (img', n) ->
       width img' = width img /\ height img' = height img
       /\ forall x y, (x < width img)%nat -> (y < height img)%nat ->
            exists p q, pixel_at img x y = Some p /\ pixel_at img' x y = Some q
                        /\ (q = p \/ q = transparent).
Proof.
  intros Hwf. split; [apply remove_white_edges_total; assumption|].
  destruct Hwf as [Hlen _]. intros img' n H.
  destruct (remove_white_edges_inv img T img' n Hlen H) as (qs & Hs & ->).
  cbn [width height]. split; [reflexivity|]. split; [reflexivity|].
  intros x y Hx Hy. unfold pixel_at. cbn [width pixels].
  pose proof (offset_in_range _ _ x y Hx Hy) as Hoff. rewrite <- Hlen in Hoff.
  destruct (lookup_lt_is_Some_2 _ _ Hoff) as [p Hp].
  destruct (Forall2_lookup_l _ _ _ _ _ (sweep_pixels T _ _ _ Hs) Hp) as (q & Hq & Hrew).
  exists p, q. split; [assumption|]. split; [assumption|].
  apply (rewritten_cases T). assumption.
Qed.

Lemma square_pixels_instance :
  (240 < Float.int_limit -> succeeds (remove_white_edges square 240))
  /\ forall img' n,
       remove_white_edges square 240 = Ok (img', n) ->
       width img' = width square /\ height img' = height square
       /\ forall x y, (x < width square)%nat -> (y < height square)%nat ->
            exists p q, pixel_at square x y = Some p /\ pixel_at img' x y = Some q
                        /\ (q = p \/ q = transparent).
Proof.
  apply (untouched_or_transparent square 240).
  split; [reflexivity|].
  unfold square; cbn [pixels]. repeat constructor; simpl; lia.
Defined.

(** C3, as the code has it.  The value returned is the number of pixels
    for which a branch is taken: each is overwritten with [(0, 0, 0, 0)]
    and counted.  It is the number of pixels whose output differs from the
    input plus the number of matched pixels that were [(0, 0, 0, 0)]
    already; from threshold 1 on there are none of the latter, and the
    value is the number of pixels changed. *)
Theorem count_is_matched_pixels (img : image) (T : Z) :
  wf_image img ->
  (T < Float.int_limit -> succeeds (remove_white_edges img T))
  /\ forall img' n,
       remove_white_edges img T = Ok (img', n) ->
       n = Z.of_nat (matched_pixels T img)
       /\ n = Z.of_nat (changed_pixels img img')
              + Z.of_nat (count (matched_transparent T) (pixels img))
       /\ (1 <= T -> n = Z.of_nat (changed_pixels img img')).
Proof.
  intros Hwf. split; [apply remove_white_edges_total; assumption|].
  destruct Hwf as [Hlen _]. intros img' n H.
  destruct (remove_white_edges_inv img T img' n Hlen H) as (qs & Hs & ->).
  unfold matched_pixels, changed_pixels. cbn [pixels].
  pose proof (sweep_differing T _ _ _ Hs) as Hd.
  split; [eapply sweep_count; eassumption|]. split; [assumption|].
  intros HT. rewrite no_matched_transparent in Hd by assumption. lia.
Qed.

Lemma square_count_instance :
  (240 < Float.int_limit -> succeeds (remove_white_edges square 240))
  /\ forall img' n,
       remove_white_edges square 240 = Ok (img', n) ->
       n = Z.of_nat (matched_pixels 240 square)
       /\ n = Z.of_nat (changed_pixels square img')
              + Z.of_nat (count (matched_transparent 240) (pixels square))
       /\ (1 <= 240 -> n = Z.of_nat (changed_pixels square img')).
Proof.
  apply (count_is_matched_pixels square 240).
  split; [reflexivity|].
  unfold square; cbn [pixels]. repeat constructor; simpl; lia.
Defined.

(** C3 as stated fails: at threshold 0 the pixel [(0, 0, 0, 0)]
    satisfies [r >= 0 and g >= 0 and b >= 0], is overwritten with the
    same value and counted, so the value returned is 1 while no pixel of
    the output differs from the input. *)
Lemma already_transparent_is_counted :
  wf_image (Image 1 1 [Pixel 0 0 0 0])
  /\ remove_white_edges (Image 1 1 [Pixel 0 0 0 0]) 0 = Ok (Image 1 1 [Pixel 0 0 0 0], 1)
  /\ changed_pixels (Image 1 1 [Pixel 0 0 0 0]) (Image 1 1 [Pixel 0 0 0 0]) = 0%nat
  /\ 1 <> Z.of_nat 0.
Proof.
  split; [|split; [|split]].
  - split; [reflexivity|]. repeat constructor; simpl; lia.
  - reflexivity.
  - reflexivity.
  - discriminate.
Qed.

(** C4. Running the filter on its own output with the same threshold
    returns that output again: no pixel changes in the second pass (and
    from threshold 1 on the second count is 0). *)
Theorem filter_idempotent (img : image) (T : Z) :
  wf_image img ->
  (T < Float.int_limit -> succeeds (remove_white_edges img T))
  /\ forall img' n,
       remove_white_edges img T = Ok (img', n) ->
       exists n', remove_white_edges img' T = Ok (img', n') /\ (1 <= T -> n' = 0).
Proof.
  intros Hwf. split; [apply remove_white_edges_total; assumption|].
  destruct Hwf as [Hlen Hpx]. intros img' n H.
  destruct (remove_white_edges_inv img T img' n Hlen H) as (qs & Hs & ->).
  destruct (sweep_again T _ _ _ Hpx Hs) as [n' Hn'].
  exists n'. rewrite remove_white_edges_sweep; cbn [width height pixels].
  - rewrite Hn'. split; [reflexivity|].
    intros HT. pose proof (sweep_differing T _ _ _ Hn') as Hd.
    rewrite differing_same, no_matched_transparent in Hd by assumption. lia.
  - rewrite (sweep_length T _ _ _ Hs). assumption.
Qed.

Lemma square_twice_instance :
  (240 < Float.int_limit -> succeeds (remove_white_edges square 240))
  /\ forall img' n,
       remove_white_edges square 240 = Ok (img', n) ->
       exists n', remove_white_edges img' 240 = Ok (img', n') /\ (1 <= 240 -> n' = 0).
Proof.
  apply (filter_idempotent square 240).
  split; [reflexivity|].
  unfold square; cbn [pixels]. repeat constructor; simpl; lia.
Defined.

Lemma hard_white_antitone T1 T2 p :
  T1 <= T2 -> hard_white T2 p = true -> hard_white T1 p = true.
Proof.
  intros HT. rewrite !hard_white_iff. unfold Rules.hard. lia.
Qed.

Lemma average_white_antitone T1 T2 p :
  T1 <= T2 -> is_average_white T2 p = true -> is_average_white T1 p = true.
Proof.
  intros HT. unfold is_average_white, average_white.
  destruct (Float.int_truediv (red p + green p + blue p) 3) as [avg | e]; cbn [bind];
    [|trivial].
  destruct avg as [a | s |]; cbn [Float.ge_int]; try trivial.
  rewrite !Z.leb_le. pose proof (FloatFacts.scale_le T1 T2 HT). lia.
Qed.

(** C5. For a fixed image and thresholds [T1 <= T2], the pixels that
    satisfy the condition of rule 1 at [T2] are at most as many as at
    [T1], and so are the pixels that satisfy the condition of rule 2. *)
Theorem matches_antitone_in_threshold (img : image) (T1 T2 : Z) :
  T1 <= T2 ->
  (hard_white_matches T2 img <= hard_white_matches T1 img)%nat
  /\ (average_white_matches T2 img <= average_white_matches T1 img)%nat.
Proof.
  intros HT. unfold hard_white_matches, average_white_matches. split.
  - apply count_mono. intros p. apply hard_white_antitone. assumption.
  - apply count_mono. intros p. apply average_white_antitone. assumption.
Qed.

Lemma square_240_250_instance :
  (hard_white_matches 250 square <= hard_white_matches 240 square)%nat
  /\ (average_white_matches 250 square <= average_white_matches 240 square)%nat.
Proof.
  apply (matches_antitone_in_threshold square 240 250). lia.
Defined.

(** The pixels that take the second branch are another matter: the
    pixel (255, 255, 240) takes the first branch at threshold 240 and the
    second at 250. *)
Remark second_branch_not_antitone :
  classify 240 (Pixel 255 255 240 255) = Ok (Some HardWhite)
  /\ classify 250 (Pixel 255 255 240 255) = Ok (Some AverageWhite).
Proof. split; vm_compute; reflexivity. Qed.

(** C6. Scenario A: on the 2x2 image with pixels (255,255,255,255),
    (250,250,250,255), (10,10,10,255), (0,0,0,0) and threshold 240 the
    first two pixels become (0,0,0,0), the third and the fourth stay as
    they are, and the count is 2. *)
Theorem scenario_a :
  remove_white_edges square 240
  = Ok (Image 2 2 [Pixel 0 0 0 0; Pixel 0 0 0 0; Pixel 10 10 10 255; Pixel 0 0 0 0], 2).
Proof. vm_compute. reflexivity. Qed.

(** C7. Scenario B: the single pixel (230,230,230,100) with threshold
    240 takes the third branch, the mean being 230.0 and the bound
    [240 * 0.85] being 204.0; it becomes (0,0,0,0) and the count is 1. *)
Theorem scenario_b :
  classify 240 (Pixel 230 230 230 100) = Ok (Some TranslucentBright)
  /\ Float.int_truediv (230 + 230 + 230) 3 = Ok (Float.Finite (230 * Float.one))
  /\ Float.int_mul 240 Float.lit_0_85 = Ok (Float.Finite (204 * Float.one))
  /\ remove_white_edges (Image 1 1 [Pixel 230 230 230 100]) 240
     = Ok (Image 1 1 [Pixel 0 0 0 0], 1).
Proof. split; [|split; [|split]]; vm_compute; reflexivity. Qed.

(** C9. For a pixel with 8-bit channels: above 255 the condition of
    rule 1 is false; below 0 it is true, the first branch is taken and
    the pixel is overwritten with (0,0,0,0). *)
Theorem out_of_range_thresholds (T : Z) (p : pixel) :
  wf_pixel p ->
  (255 < T -> hard_white T p = false /\ ~ Rules.hard T p)
  /\ (T < 0 ->
      hard_white T p = true /\ Rules.hard T p
      /\ classify T p = Ok (Some HardWhite)
      /\ forall w x y buf n,
           buf !! offset w x y = Some p ->
           body T w y x (buf, n) = Ok (<[offset w x y := transparent]> buf, n + 1)).
Proof.
  intros (Hr & Hg & Hb & _). unfold channel in *. split.
  - intros HT. assert (Hno : ~ Rules.hard T p) by (unfold Rules.hard; lia).
    split; [|assumption].
    destruct (hard_white T p) eqn:E; [|reflexivity].
    apply hard_white_iff in E. contradiction.
  - intros HT. assert (Hyes : Rules.hard T p) by (unfold Rules.hard; lia).
    pose proof (proj2 (hard_white_iff T p) Hyes) as E.
    assert (Hc : classify T p = Ok (Some HardWhite)) by (unfold classify; rewrite E; reflexivity).
    repeat split; try assumption; try (unfold Rules.hard in Hyes; lia).
    intros w x y buf n Hp. unfold body. rewrite Hp, Hc. reflexivity.
Qed.

Lemma threshold_minus_one_instance :
  (255 < -1 -> hard_white (-1) (Pixel 10 10 10 255) = false
               /\ ~ Rules.hard (-1) (Pixel 10 10 10 255))
  /\ (-1 < 0 ->
      hard_white (-1) (Pixel 10 10 10 255) = true /\ Rules.hard (-1) (Pixel 10 10 10 255)
      /\ classify (-1) (Pixel 10 10 10 255) = Ok (Some HardWhite)
      /\ forall w x y buf n,
           buf !! offset w x y = Some (Pixel 10 10 10 255) ->
           body (-1) w y x (buf, n) = Ok (<[offset w x y := transparent]> buf, n + 1)).
Proof.
  apply (out_of_range_thresholds (-1) (Pixel 10 10 10 255)).
  unfold wf_pixel, channel. simpl. lia.
Defined.

(** Rule 1 and the chain, pixel by pixel.  For a pixel with 8-bit
    channels and any threshold: rule 1 implies rule 2, in exact
    arithmetic and in the floats of line 38; a branch is taken exactly
    when rule 2 or rule 3 holds; and the chain without its first branch
    takes the second branch where the first was taken and otherwise does
    what the chain does. *)
Lemma chain_without_rule1 (T : Z) (p : pixel) :
  wf_pixel p ->
  (Rules.hard T p -> Rules.average T p)
  /\ (hard_white T p = true -> average_white T p = Ok true)
  /\ ((exists k, classify T p = Ok (Some k)) <-> Rules.average T p \/ Rules.translucent T p)
  /\ classify_without_hard_white T p
     = match classify T p with
       | Ok (Some HardWhite) => Ok (Some AverageWhite)
       | other => other
       end.
Proof.
  intros Hwf.
  assert (H12 : Rules.hard T p -> Rules.average T p).
  { rewrite average_iff. unfold Rules.hard, rgb_sum. lia. }
  assert (H12' : hard_white T p = true -> average_white T p = Ok true).
  { intros E. rewrite average_white_wf by assumption. f_equal.
    apply Z.leb_le. apply average_iff, H12, hard_white_iff, E. }
  split; [assumption|]. split; [assumption|]. split.
  - rewrite classify_some by assumption. unfold Rules.any. tauto.
  - unfold classify_without_hard_white, classify.
    destruct (hard_white T p) eqn:E.
    + rewrite H12' by reflexivity. reflexivity.
    + destruct (average_white T p) as [[|] | e]; cbn [bind]; try reflexivity.
      destruct (translucent_bright T p) as [[|] | e]; reflexivity.
Qed.

Lemma chain_on_near_white_pixel :
  (Rules.hard 240 (Pixel 250 250 250 255) -> Rules.average 240 (Pixel 250 250 250 255))
  /\ (hard_white 240 (Pixel 250 250 250 255) = true ->
      average_white 240 (Pixel 250 250 250 255) = Ok true)
  /\ ((exists k, classify 240 (Pixel 250 250 250 255) = Ok (Some k))
      <-> Rules.average 240 (Pixel 250 250 250 255)
          \/ Rules.translucent 240 (Pixel 250 250 250 255))
  /\ classify_without_hard_white 240 (Pixel 250 250 250 255)
     = match classify 240 (Pixel 250 250 250 255) with
       | Ok (Some HardWhite) => Ok (Some AverageWhite)
       | other => other
       end.
Proof.
  apply (chain_without_rule1 240 (Pixel 250 250 250 255)).
  unfold wf_pixel, channel. simpl. lia.
Defined.



(** * Further properties of the filter *)

Import Float FloatFacts.

Lemma overflow_pos : 0 < overflow_threshold.
Proof. pose proof one_pos. pose proof one_below_overflow. lia. Qed.

(** Below zero the bound of line 42 is not positive. *)
Lemma bound_negative T f u :
  T < 0 -> of_int T = Ok f -> 0 <= u -> ge (Finite u) (mul f lit_0_85) = true.
Proof.
  intros HT Hconv Hu. pose proof one_pos as H1. pose proof overflow_pos as Hov.
  apply of_int_ok in Hconv. subst f.
  replace (T * one) with (- (- T * one)) by ring. rewrite round_ne_opp.
  set (v := round_ne (- T * one) 1).
  assert (Hv : 0 <= v) by (apply round_ne_pos; nia).
  rewrite lit_0_85_units. cbn [mul].
  replace (- v * c085) with (- (v * c085)) by ring. rewrite round_ne_opp.
  set (G := round_ne (v * c085) one).
  assert (Hc : 0 <= c085).
  { pose proof c085_gap. pose proof tiny_small. lia. }
  assert (HG : 0 <= G) by (apply round_ne_pos; nia).
  unfold of_rounded. rewrite Z.abs_opp, (Z.abs_eq G) by assumption.
  destruct (overflow_threshold <=? G) eqn:E.
  - apply Z.leb_le in E.
    assert (Hneg : (- G <? 0) = true) by (apply Z.ltb_lt; lia).
    rewrite Hneg. reflexivity.
  - cbn [ge]. apply Z.leb_le. lia.
Qed.

Lemma sweep_wf T ps : forall qs n,
  Forall wf_pixel ps -> sweep T ps = Ok (qs, n) -> Forall wf_pixel qs.
Proof.
  intros qs n Hwf Hs. apply sweep_pixels in Hs.
  induction Hs as [| p q ps qs Hpq _ IH]; [constructor|].
  inversion Hwf as [| ? ? Hp Hps]; subst. constructor; [|apply IH; assumption].
  destruct (rewritten_cases T p q Hpq) as [-> | ->]; [assumption | apply wf_transparent].
Qed.

(** One pass when the branch of every pixel is known. *)
Lemma sweep_known T (f : pixel -> option rule) ps :
  Forall (fun p => classify T p = Ok (f p)) ps ->
  sweep T ps
  = Ok (map (fun p => stored p (f p)) ps,
        Z.of_nat (count (fun p => bool_decide (is_Some (f p))) ps)).
Proof.
  induction 1 as [| p ps Hp _ IH]; [reflexivity|].
  cbn [sweep map count]. rewrite Hp, IH. cbn [bind]. do 2 f_equal.
  destruct (f p) as [k |]; cbn [counted].
  - rewrite bool_decide_eq_true_2 by eauto. lia.
  - rewrite bool_decide_eq_false_2 by (intros [k Hk]; discriminate). lia.
Qed.

Lemma count_all {A : Type} (f : A -> bool) xs :
  (forall x, f x = true) -> count f xs = length xs.
Proof.
  intros Hf. induction xs as [| x xs IH]; [reflexivity|].
  cbn [count length]. rewrite Hf, IH. reflexivity.
Qed.

Lemma count_none {A : Type} (f : A -> bool) xs :
  (forall x, f x = false) -> count f xs = 0%nat.
Proof.
  intros Hf. induction xs as [| x xs IH]; [reflexivity|].
  cbn [count]. rewrite Hf, IH. reflexivity.
Qed.

Lemma count_ext {A : Type} (f g : A -> bool) xs :
  (forall x, f x = g x) -> count f xs = count g xs.
Proof.
  intros Hfg. induction xs as [| x xs IH]; [reflexivity|].
  cbn [count]. rewrite Hfg, IH. reflexivity.
Qed.

Lemma count_le_length {A : Type} (f : A -> bool) xs : (count f xs <= length xs)%nat.
Proof.
  induction xs as [| x xs IH]; [reflexivity|].
  cbn [count length]. destruct (f x); lia.
Qed.

Lemma map_transparent (ps : list pixel) :
  map (fun _ => transparent) ps = replicate (length ps) transparent.
Proof.
  induction ps as [| p ps IH]; [reflexivity|]. cbn [map length replicate]. rewrite IH.
  reflexivity.
Qed.

Lemma image_eta img : Image (width img) (height img) (pixels img) = img.
Proof. destruct img. reflexivity. Qed.

(** A rule that holds at a threshold holds at every lower one. *)
Lemma any_antitone T1 T2 p : T1 <= T2 -> Rules.any T2 p -> Rules.any T1 p.
Proof.
  intros HT. rewrite !any_iff, !hard_white_iff. unfold Rules.hard. lia.
Qed.

Lemma matched_iff T p : wf_pixel p -> is_matched T p = true <-> Rules.any T p.
Proof.
  intros Hwf. rewrite <- classify_some by assumption. unfold is_matched.
  destruct (classify T p) as [[k |] | e]; split; intros H; eauto;
    try discriminate; destruct H as [k' Hk']; discriminate.
Qed.

(** X1. Whenever the filter returns, the count lies between 0 and the
    number of pixels of the image. *)
Theorem count_within_image (img : image) (T : Z) (img' : image) (n : Z) :
  wf_image img ->
  remove_white_edges img T = Ok (img', n) ->
  0 <= n <= Z.of_nat (width img * height img).
Proof.
  intros [Hlen _] H.
  destruct (remove_white_edges_inv img T img' n Hlen H) as (qs & Hs & _).
  rewrite (sweep_count T _ _ _ Hs), <- Hlen.
  pose proof (count_le_length (is_matched T) (pixels img)). lia.
Qed.

Lemma square_count_bounds : 0 <= 2 <= Z.of_nat (width square * height square).
Proof.
  apply (count_within_image square 240
           (Image 2 2 [Pixel 0 0 0 0; Pixel 0 0 0 0; Pixel 10 10 10 255; Pixel 0 0 0 0]) 2).
  - split; [reflexivity|]. unfold square; cbn [pixels]. repeat constructor; simpl; lia.
  - vm_compute. reflexivity.
Defined.

(** X2. With a threshold of 0 or less, every pixel of an RGBA image
    satisfies rule 1: the filter returns the image with all pixels
    [(0, 0, 0, 0)] and the number of pixels as count. *)
Theorem nonpositive_threshold_clears (img : image) (T : Z) :
  wf_image img ->
  T <= 0 ->
  remove_white_edges img T
  = Ok (Image (width img) (height img)
              (replicate (width img * height img) transparent),
        Z.of_nat (width img * height img)).
Proof.
  intros [Hlen Hwf] HT. rewrite remove_white_edges_sweep by assumption.
  rewrite (sweep_known T (fun _ => Some HardWhite)).
  - cbn [bind stored]. rewrite map_transparent, count_all, Hlen; [reflexivity|].
    intros p. apply bool_decide_eq_true_2. eauto.
  - eapply Forall_impl; [exact Hwf|]. intros p (Hr & Hg & Hb & _).
    unfold classify, hard_white, channel in *.
    replace (T <=? red p) with true by (symmetry; apply Z.leb_le; lia).
    replace (T <=? green p) with true by (symmetry; apply Z.leb_le; lia).
    replace (T <=? blue p) with true by (symmetry; apply Z.leb_le; lia).
    reflexivity.
Qed.

Lemma square_cleared_at_zero :
  remove_white_edges square 0
  = Ok (Image (width square) (height square)
              (replicate (width square * height square) transparent),
        Z.of_nat (width square * height square)).
Proof.
  apply (nonpositive_threshold_clears square 0).
  - split; [reflexivity|]. unfold square; cbn [pixels]. repeat constructor; simpl; lia.
  - lia.
Defined.

(** X3. With a threshold above 300 that converts to a float, no rule can
    hold for 8-bit channels ([0.85 * 300 = 255]): the filter returns the
    image as it was, with count 0. *)
Theorem high_threshold_changes_nothing (img : image) (T : Z) :
  wf_image img ->
  300 < T ->
  T < int_limit ->
  remove_white_edges img T = Ok (img, 0).
Proof.
  intros [Hlen Hwf] HT Hlim. rewrite remove_white_edges_sweep by assumption.
  rewrite (sweep_known T (fun _ => None)).
  - cbn [bind stored]. rewrite map_id, count_none, image_eta; [reflexivity|].
    intros p. apply bool_decide_eq_false_2. intros [k Hk]. discriminate.
  - eapply Forall_impl; [exact Hwf|]. intros p Hp.
    apply classify_none; try assumption.
    pose proof (sum_range p Hp) as Hs. destruct Hp as (Hr & _).
    rewrite any_iff, hard_white_iff. unfold Rules.hard, channel in *. lia.
Qed.

Lemma square_kept_at_301 : remove_white_edges square 301 = Ok (square, 0).
Proof.
  apply (high_threshold_changes_nothing square 301).
  - split; [reflexivity|]. unfold square; cbn [pixels]. repeat constructor; simpl; lia.
  - lia.
  - reflexivity.
Defined.

(** The bound 300 is sharp: the pixel (255, 255, 255, 254) is matched by
    rule 3 at threshold 300. *)
Remark threshold_300_still_matches :
  classify 300 (Pixel 255 255 255 254) = Ok (Some TranslucentBright).
Proof. vm_compute. reflexivity. Qed.

Lemma sweep_unconvertible T ps :
  Forall wf_pixel ps -> int_limit <= T ->
  sweep T ps = if forallb opaque ps then Ok (ps, 0) else Raise OverflowError.
Proof.
  intros Hwf Hlim. induction Hwf as [| p ps Hp _ IH]; [reflexivity|].
  cbn [sweep forallb]. rewrite classify_overflow by assumption. unfold opaque at 1.
  destruct (alpha p <? 255) eqn:E.
  - apply Z.ltb_lt in E.
    replace (255 <=? alpha p) with false by (symmetry; apply Z.leb_gt; lia).
    reflexivity.
  - apply Z.ltb_ge in E.
    replace (255 <=? alpha p) with true by (symmetry; apply Z.leb_le; lia).
    cbn [bind andb]. rewrite IH. destruct (forallb opaque ps); reflexivity.
Qed.

(** X4. A threshold of [2^1024 - 2^970] or more does not convert to a
    float.  On an RGBA image whose pixels all have alpha 255 line 42 never
    multiplies, and the filter returns the image as it was with count 0;
    as soon as one pixel has a smaller alpha the filter raises
    OverflowError, and nothing is returned or saved. *)
Theorem unconvertible_threshold (img : image) (T : Z) :
  wf_image img ->
  int_limit <= T ->
  remove_white_edges img T = if all_opaque img then Ok (img, 0) else Raise OverflowError.
Proof.
  intros [Hlen Hwf] Hlim. rewrite remove_white_edges_sweep by assumption.
  rewrite sweep_unconvertible by assumption. unfold all_opaque.
  destruct (forallb opaque (pixels img)); cbn [bind]; [|reflexivity].
  rewrite image_eta. reflexivity.
Qed.

Lemma square_at_the_limit :
  remove_white_edges square int_limit
  = if all_opaque square then Ok (square, 0) else Raise OverflowError.
Proof.
  apply (unconvertible_threshold square int_limit).
  - split; [reflexivity|]. unfold square; cbn [pixels]. repeat constructor; simpl; lia.
  - lia.
Defined.

Lemma sweep_antitone T1 T2 ps : forall qs1 n1 qs2 n2,
  Forall wf_pixel ps -> T1 <= T2 ->
  sweep T1 ps = Ok (qs1, n1) -> sweep T2 ps = Ok (qs2, n2) ->
  n2 <= n1
  /\ forall i, qs1 !! i = ps !! i -> qs2 !! i = ps !! i.
Proof.
  induction ps as [| p ps IH]; intros qs1 n1 qs2 n2 Hwf HT H1 H2;
    cbn [sweep] in H1, H2.
  - injection H1 as <- <-. injection H2 as <- <-. split; [lia | auto].
  - inversion Hwf as [| ? ? Hp Hps]; subst.
    destruct (classify T1 p) as [k1 | e] eqn:Hc1; cbn [bind] in H1; [|discriminate].
    destruct (sweep T1 ps) as [[qs1' n1'] | e]; cbn [bind] in H1; [|discriminate].
    destruct (classify T2 p) as [k2 | e] eqn:Hc2; cbn [bind] in H2; [|discriminate].
    destruct (sweep T2 ps) as [[qs2' n2'] | e]; cbn [bind] in H2; [|discriminate].
    injection H1 as <- <-. injection H2 as <- <-.
    destruct (IH qs1' n1' qs2' n2' Hps HT eq_refl eq_refl) as [Hn Hkeep].
    assert (Hk : is_Some k2 -> is_Some k1).
    { intros [r2 ->].
      assert (Hany : Rules.any T1 p).
      { apply (any_antitone T1 T2); [assumption|]. apply classify_some; eauto. }
      apply classify_some in Hany; [|assumption]. destruct Hany as [r1 Hr1].
      rewrite Hr1 in Hc1. injection Hc1 as <-. eauto. }
    split.
    + destruct k2 as [r2 |]; cbn [counted].
      * destruct (Hk ltac:(eauto)) as [r1 ->]. cbn [counted]. lia.
      * destruct k1; cbn [counted]; lia.
    + intros [| i]; cbn [lookup list_lookup]; [|apply Hkeep].
      destruct k2 as [r2 |]; cbn [stored]; [|auto].
      destruct (Hk ltac:(eauto)) as [r1 ->]. cbn [stored]. auto.
Qed.

(** X5. Raising the threshold never makes the filter touch more: for
    thresholds [T1 <= T2] on the same RGBA image, the count at [T2] is at
    most the count at [T1], and every position that the run at [T1] left
    equal to the input is left equal by the run at [T2]. *)
Theorem higher_threshold_touches_less
    (img : image) (T1 T2 : Z) (out1 out2 : image) (n1 n2 : Z) :
  wf_image img ->
  T1 <= T2 ->
  remove_white_edges img T1 = Ok (out1, n1) ->
  remove_white_edges img T2 = Ok (out2, n2) ->
  n2 <= n1
  /\ forall x y, pixel_at out1 x y = pixel_at img x y ->
                 pixel_at out2 x y = pixel_at img x y.
Proof.
  intros [Hlen Hwf] HT H1 H2.
  destruct (remove_white_edges_inv img T1 out1 n1 Hlen H1) as (qs1 & Hs1 & ->).
  destruct (remove_white_edges_inv img T2 out2 n2 Hlen H2) as (qs2 & Hs2 & ->).
  destruct (sweep_antitone T1 T2 _ _ _ _ _ Hwf HT Hs1 Hs2) as [Hn Hkeep].
  split; [assumption|]. intros x y. unfold pixel_at. cbn [width pixels]. apply Hkeep.
Qed.

Lemma square_240_then_251 :
  1 <= 2
  /\ forall x y,
       pixel_at (Image 2 2 [Pixel 0 0 0 0; Pixel 0 0 0 0; Pixel 10 10 10 255; Pixel 0 0 0 0])
                x y = pixel_at square x y ->
       pixel_at (Image 2 2 [Pixel 0 0 0 0; Pixel 250 250 250 255;
                            Pixel 10 10 10 255; Pixel 0 0 0 0])
                x y = pixel_at square x y.
Proof.
  apply (higher_threshold_touches_less square 240 251
           (Image 2 2 [Pixel 0 0 0 0; Pixel 0 0 0 0; Pixel 10 10 10 255; Pixel 0 0 0 0])
           (Image 2 2 [Pixel 0 0 0 0; Pixel 250 250 250 255;
                       Pixel 10 10 10 255; Pixel 0 0 0 0]) 2 1).
  - split; [reflexivity|]. unfold square; cbn [pixels]. repeat constructor; simpl; lia.
  - lia.
  - vm_compute. reflexivity.
  - vm_compute. reflexivity.
Defined.

Lemma classify_opaque T p :
  wf_pixel p -> opaque p = true ->
  classify T p = Ok (if 3 * T <=? rgb_sum p then
                       Some (if hard_white T p then HardWhite else AverageWhite)
                     else None).
Proof.
  intros Hwf Hop. unfold opaque in Hop. apply Z.leb_le in Hop.
  rewrite classify_wf by assumption.
  destruct (hard_white T p) eqn:E1.
  - apply hard_white_iff in E1.
    replace (3 * T <=? rgb_sum p) with true; [reflexivity|].
    symmetry. apply Z.leb_le. unfold Rules.hard, rgb_sum in *. lia.
  - destruct (3 * T <=? rgb_sum p); [reflexivity|].
    replace (alpha p <? 255) with false by (symmetry; apply Z.ltb_ge; lia).
    reflexivity.
Qed.

(** X6. On an RGBA image whose pixels all have alpha 255 the filter
    returns for every threshold, however large, and a pixel becomes
    [(0, 0, 0, 0)] exactly when [r + g + b >= 3 * T]; every other pixel
    is kept. *)
Theorem opaque_image_mean_test (img : image) (T : Z) :
  wf_image img ->
  all_opaque img = true ->
  remove_white_edges img T
  = Ok (Image (width img) (height img)
              (map (fun p => if 3 * T <=? rgb_sum p then transparent else p) (pixels img)),
        Z.of_nat (count (fun p => 3 * T <=? rgb_sum p) (pixels img))).
Proof.
  intros [Hlen Hwf] Hop. rewrite remove_white_edges_sweep by assumption.
  unfold all_opaque in Hop. rewrite forallb_forall in Hop.
  rewrite (sweep_known T (fun p => if 3 * T <=? rgb_sum p then
                                     Some (if hard_white T p then HardWhite else AverageWhite)
                                   else None)).
  - cbn [bind].
    rewrite (count_ext _ (fun p => 3 * T <=? rgb_sum p)).
    2:{ intros p. destruct (3 * T <=? rgb_sum p).
        - apply bool_decide_eq_true_2. eauto.
        - apply bool_decide_eq_false_2. intros [k Hk]. discriminate. }
    rewrite (map_ext _ (fun p => if 3 * T <=? rgb_sum p then transparent else p));
      [reflexivity|].
    intros p. destruct (3 * T <=? rgb_sum p); reflexivity.
  - rewrite Forall_forall in Hwf |- *. intros p Hin.
    apply classify_opaque; [apply Hwf; assumption|].
    apply Hop. apply list_elem_of_In. assumption.
Qed.

Lemma opaque_row_instance :
  remove_white_edges (Image 2 1 [Pixel 255 255 210 255; Pixel 255 255 209 255]) 240
  = Ok (Image 2 1
          (map (fun p => if 3 * 240 <=? rgb_sum p then transparent else p)
               [Pixel 255 255 210 255; Pixel 255 255 209 255]),
        Z.of_nat (count (fun p => 3 * 240 <=? rgb_sum p)
                        [Pixel 255 255 210 255; Pixel 255 255 209 255])).
Proof.
  apply (opaque_image_mean_test (Image 2 1 [Pixel 255 255 210 255; Pixel 255 255 209 255]) 240).
  - split; [reflexivity|]. cbn [pixels]. repeat constructor; simpl; lia.
  - reflexivity.
Defined.

(** X7. The output of the filter is again an RGBA image with 8-bit
    channels, and no channel of any pixel is larger than it was: the
    filter never brightens a pixel and never makes it more opaque. *)
Theorem output_is_rgba_and_no_channel_grows (img : image) (T : Z) (img' : image) (n : Z) :
  wf_image img ->
  remove_white_edges img T = Ok (img', n) ->
  wf_image img'
  /\ forall x y p q,
       pixel_at img x y = Some p -> pixel_at img' x y = Some q ->
       red q <= red p /\ green q <= green p /\ blue q <= blue p /\ alpha q <= alpha p.
Proof.
  intros [Hlen Hwf] H.
  destruct (remove_white_edges_inv img T img' n Hlen H) as (qs & Hs & ->).
  split.
  - split; cbn [width height pixels].
    + rewrite (sweep_length T _ _ _ Hs). assumption.
    + eapply sweep_wf; eassumption.
  - intros x y p q. unfold pixel_at. cbn [width pixels]. intros Hp Hq.
    pose proof (Forall2_lookup_lr _ _ _ _ _ _ (sweep_pixels T _ _ _ Hs) Hp Hq) as Hrew.
    pose proof (proj1 (Forall_lookup _ _) Hwf _ _ Hp) as (Hr & Hg & Hb & Ha).
    unfold channel in *.
    destruct (rewritten_cases T p q Hrew) as [-> | ->]; [lia|].
    unfold transparent. cbn [red green blue alpha]. lia.
Qed.

Lemma square_output_instance :
  wf_image (Image 2 2 [Pixel 0 0 0 0; Pixel 0 0 0 0; Pixel 10 10 10 255; Pixel 0 0 0 0])
  /\ forall x y p q,
       pixel_at square x y = Some p ->
       pixel_at (Image 2 2 [Pixel 0 0 0 0; Pixel 0 0 0 0; Pixel 10 10 10 255; Pixel 0 0 0 0])
                x y = Some q ->
       red q <= red p /\ green q <= green p /\ blue q <= blue p /\ alpha q <= alpha p.
Proof.
  apply (output_is_rgba_and_no_channel_grows square 240
           (Image 2 2 [Pixel 0 0 0 0; Pixel 0 0 0 0; Pixel 10 10 10 255; Pixel 0 0 0 0]) 2).
  - split; [reflexivity|]. unfold square; cbn [pixels]. repeat constructor; simpl; lia.
  - vm_compute. reflexivity.
Defined.

(** X8. The pixels are filtered independently: what the filter leaves at
    a position depends only on the pixel found there and on the
    threshold, not on the position, the dimensions or the other pixels. *)
Theorem pixels_filtered_independently
    (img1 img2 : image) (T : Z) (out1 out2 : image) (n1 n2 : Z)
    (x1 y1 x2 y2 : nat) (p : pixel) :
  wf_image img1 ->
  wf_image img2 ->
  remove_white_edges img1 T = Ok (out1, n1) ->
  remove_white_edges img2 T = Ok (out2, n2) ->
  pixel_at img1 x1 y1 = Some p ->
  pixel_at img2 x2 y2 = Some p ->
  pixel_at out1 x1 y1 = pixel_at out2 x2 y2.
Proof.
  intros [Hlen1 _] [Hlen2 _] H1 H2 Hp1 Hp2.
  destruct (remove_white_edges_inv img1 T out1 n1 Hlen1 H1) as (qs1 & Hs1 & ->).
  destruct (remove_white_edges_inv img2 T out2 n2 Hlen2 H2) as (qs2 & Hs2 & ->).
  unfold pixel_at in *. cbn [width pixels].
  destruct (Forall2_lookup_l _ _ _ _ _ (sweep_pixels T _ _ _ Hs1) Hp1)
    as (q1 & Hq1 & k1 & Hk1 & ->).
  destruct (Forall2_lookup_l _ _ _ _ _ (sweep_pixels T _ _ _ Hs2) Hp2)
    as (q2 & Hq2 & k2 & Hk2 & ->).
  rewrite Hq1, Hq2. congruence.
Qed.

Lemma square_and_row_instance :
  pixel_at (Image 2 2 [Pixel 0 0 0 0; Pixel 0 0 0 0; Pixel 10 10 10 255; Pixel 0 0 0 0]) 1 0
  = pixel_at (Image 1 1 [Pixel 0 0 0 0]) 0 0.
Proof.
  apply (pixels_filtered_independently square (Image 1 1 [Pixel 250 250 250 255]) 240
           (Image 2 2 [Pixel 0 0 0 0; Pixel 0 0 0 0; Pixel 10 10 10 255; Pixel 0 0 0 0])
           (Image 1 1 [Pixel 0 0 0 0]) 2 1 1 0 0 0 (Pixel 250 250 250 255)).
  - split; [reflexivity|]. unfold square; cbn [pixels]. repeat constructor; simpl; lia.
  - split; [reflexivity|]. cbn [pixels]. repeat constructor; simpl; lia.
  - vm_compute. reflexivity.
  - vm_compute. reflexivity.
  - reflexivity.
  - reflexivity.
Defined.

(** X9. For 8-bit channels and every threshold that converts to a float,
    the two floating-point tests decide exact integer inequalities: line
    38 is true exactly when [3 * T <= r + g + b], and line 42 exactly when
    [a < 255] and [51 * T <= 20 * (r + g + b)].  No rounding of
    [(r + g + b) / 3] or of [threshold * 0.85] moves a pixel across
    either test. *)
Theorem float_tests_are_exact (T : Z) (p : pixel) :
  wf_pixel p ->
  - int_limit < T < int_limit ->
  average_white T p = Ok (3 * T <=? rgb_sum p)
  /\ translucent_bright T p = Ok ((alpha p <? 255) && (51 * T <=? 20 * rgb_sum p)).
Proof.
  intros Hwf HT. pose proof (sum_range p Hwf) as Hs.
  split; [apply average_white_wf; assumption|].
  destruct (Z_le_gt_dec 0 T) as [Hpos | Hneg].
  - rewrite translucent_bright_wf by assumption.
    destruct (alpha p <? 255); [|reflexivity].
    rewrite of_int_nonneg by assumption.
    replace (T <? int_limit) with true by (symmetry; apply Z.ltb_lt; lia).
    reflexivity.
  - unfold translucent_bright. fold (rgb_sum p).
    destruct (alpha p <? 255); [|reflexivity].
    destruct (third_units (rgb_sum p) Hs) as (u & Hdiv & Herr & Hexact).
    rewrite Hdiv. cbn [bind]. unfold int_mul.
    destruct (proj2 (of_int_succeeds T) HT) as [f Hf]. rewrite Hf. cbn [bind andb].
    assert (Hu : 0 <= u).
    { pose proof one_pos. pose proof tiny_small as (Hgap & Htiny & Hsmall).
      destruct (Z.eq_dec (rgb_sum p) 0) as [Hz | Hnz].
      - assert (3 * u = rgb_sum p * one) by (apply Hexact; rewrite Hz; reflexivity). nia.
      - pose proof (scale_le 1 (rgb_sum p) ltac:(lia)). lia. }
    rewrite (bound_negative T f u) by (assumption || lia).
    f_equal. symmetry. apply Z.leb_le. lia.
Qed.

Lemma float_tests_at_240 :
  average_white 240 (Pixel 230 230 230 100) = Ok (3 * 240 <=? rgb_sum (Pixel 230 230 230 100))
  /\ translucent_bright 240 (Pixel 230 230 230 100)
     = Ok ((alpha (Pixel 230 230 230 100) <? 255)
           && (51 * 240 <=? 20 * rgb_sum (Pixel 230 230 230 100))).
Proof.
  apply (float_tests_are_exact 240 (Pixel 230 230 230 100)).
  - unfold wf_pixel, channel. simpl. lia.
  - split; reflexivity.
Defined.

Lemma sweep_compose T1 T2 ps : forall qs1 n1 qs2 n2,
  Forall wf_pixel ps ->
  sweep T1 ps = Ok (qs1, n1) -> sweep T2 qs1 = Ok (qs2, n2) ->
  exists n3, sweep (Z.min T1 T2) ps = Ok (qs2, n3).
Proof.
  induction ps as [| p ps IH]; intros qs1 n1 qs2 n2 Hwf H1 H2; cbn [sweep] in H1.
  - injection H1 as <- <-. cbn [sweep] in H2. injection H2 as <- <-.
    eexists. reflexivity.
  - inversion Hwf as [| ? ? Hp Hps]; subst.
    destruct (classify T1 p) as [k1 | e] eqn:Hc1; cbn [bind] in H1; [|discriminate].
    destruct (sweep T1 ps) as [[qs1' n1'] | e] eqn:Hs1; cbn [bind] in H1; [|discriminate].
    injection H1 as <- <-. cbn [sweep] in H2.
    destruct (classify T2 (stored p k1)) as [k2 | e] eqn:Hc2; cbn [bind] in H2;
      [|discriminate].
    destruct (sweep T2 qs1') as [[qs2' n2'] | e] eqn:Hs2; cbn [bind] in H2; [|discriminate].
    injection H2 as <- <-.
    destruct (IH qs1' n1' qs2' n2' Hps eq_refl Hs2) as [n3 Hn3].
    assert (Hk : exists k3, classify (Z.min T1 T2) p = Ok k3
                            /\ stored p k3 = stored (stored p k1) k2).
    { destruct (Z_le_gt_dec T1 T2) as [Hle | Hgt].
      - rewrite Z.min_l by assumption. exists k1. split; [assumption|].
        destruct k1 as [r1 |]; cbn [stored]; [destruct k2; reflexivity|].
        cbn [stored] in Hc2. destruct k2 as [r2 |]; [|reflexivity].
        assert (Hany : Rules.any T1 p).
        { apply (any_antitone T1 T2); [assumption|]. apply classify_some; eauto. }
        apply classify_some in Hany; [|assumption]. destruct Hany as [r1 Hr1]. congruence.
      - rewrite Z.min_r by lia.
        destruct k1 as [r1 |]; cbn [stored] in Hc2 |- *; [|eauto].
        assert (Hany : Rules.any T2 p).
        { apply (any_antitone T2 T1); [lia|]. apply classify_some; eauto. }
        apply classify_some in Hany; [|assumption]. destruct Hany as [r3 Hr3].
        exists (Some r3). split; [assumption|]. destruct k2; reflexivity. }
    destruct Hk as (k3 & Hk3 & Heq).
    cbn [sweep]. rewrite Hk3, Hn3. cbn [bind]. rewrite Heq. eexists. reflexivity.
Qed.

(** Two runs that both return compose to one run at the lower
    threshold. *)
Lemma two_returning_runs_compose
    (img : image) (T1 T2 : Z) (out1 out2 : image) (n1 n2 : Z) :
  wf_image img ->
  remove_white_edges img T1 = Ok (out1, n1) ->
  remove_white_edges out1 T2 = Ok (out2, n2) ->
  exists n3, remove_white_edges img (Z.min T1 T2) = Ok (out2, n3).
Proof.
  intros [Hlen Hwf] H1 H2.
  destruct (remove_white_edges_inv img T1 out1 n1 Hlen H1) as (qs1 & Hs1 & ->).
  assert (Hlen1 : length qs1 = (width img * height img)%nat)
    by (rewrite (sweep_length T1 _ _ _ Hs1); assumption).
  destruct (remove_white_edges_inv (Image (width img) (height img) qs1) T2 out2 n2
              Hlen1 H2) as (qs2 & Hs2 & ->).
  cbn [width height pixels] in *.
  destruct (sweep_compose T1 T2 _ _ _ _ _ Hwf Hs1 Hs2) as [n3 Hn3].
  exists n3. rewrite remove_white_edges_sweep by assumption. rewrite Hn3. reflexivity.
Qed.

Lemma square_two_returning_runs :
  exists n3,
    remove_white_edges square (Z.min 251 240)
    = Ok (Image 2 2 [Pixel 0 0 0 0; Pixel 0 0 0 0; Pixel 10 10 10 255; Pixel 0 0 0 0], n3).
Proof.
  apply (two_returning_runs_compose square 251 240
           (Image 2 2 [Pixel 0 0 0 0; Pixel 250 250 250 255;
                       Pixel 10 10 10 255; Pixel 0 0 0 0])
           (Image 2 2 [Pixel 0 0 0 0; Pixel 0 0 0 0; Pixel 10 10 10 255; Pixel 0 0 0 0])
           1 1).
  - split; [reflexivity|]. unfold square; cbn [pixels]. repeat constructor; simpl; lia.
  - vm_compute. reflexivity.
  - vm_compute. reflexivity.
Defined.

(** * The filter and the rules *)

Lemma rewritten_by_rule T p q :
  wf_pixel p -> rewritten T p q ->
  (Rules.any T p -> q = transparent) /\ (~ Rules.any T p -> q = p).
Proof.
  intros Hwf (taken & Hc & ->). split.
  - intros Hany. apply classify_some in Hany; [|assumption].
    destruct Hany as [k Hk]. rewrite Hk in Hc. injection Hc as <-. reflexivity.
  - intros Hno. destruct taken as [k |]; [|reflexivity].
    exfalso. apply Hno. apply classify_some; eauto.
Qed.

(** The loop raises only OverflowError, and only for a threshold that
    does not convert. *)
Lemma sweep_raises T ps e :
  Forall wf_pixel ps -> sweep T ps = Raise e -> e = OverflowError /\ int_limit <= T.
Proof.
  intros Hwf H. destruct (Z_lt_le_dec T int_limit) as [Hlt | Hge].
  - destruct (sweep_total T ps Hwf Hlt) as [a Ha]. congruence.
  - rewrite sweep_unconvertible in H by assumption.
    destruct (forallb opaque ps); [discriminate|]. injection H as <-. auto.
Qed.

Lemma remove_white_edges_raises img T e :
  wf_image img -> remove_white_edges img T = Raise e ->
  e = OverflowError /\ int_limit <= T.
Proof.
  intros [Hlen Hwf] H. rewrite remove_white_edges_sweep in H by assumption.
  destruct (sweep T (pixels img)) as [[qs n] | e'] eqn:Hs; cbn [bind] in H; [discriminate|].
  injection H as <-. eapply sweep_raises; eassumption.
Qed.

Lemma remove_white_edges_wf img T img' n :
  wf_image img -> remove_white_edges img T = Ok (img', n) -> wf_image img'.
Proof.
  intros [Hlen Hwf] H.
  destruct (remove_white_edges_inv img T img' n Hlen H) as (qs & Hs & ->).
  split; cbn [width height pixels].
  - rewrite (sweep_length T _ _ _ Hs). assumption.
  - eapply sweep_wf; eassumption.
Qed.

(** C1. For every RGBA image, every pixel [(r, g, b, a)] of it and every
    threshold [T]: the image that the filter returns has [(0, 0, 0, 0)]
    at the position of the pixel if one of the three rules holds for it,
    [r >= T and g >= T and b >= T], or [(r + g + b) / 3 >= T], or
    [a < 255 and (r + g + b) / 3 >= 0.85 * T], and has the pixel itself,
    all four channels as they were, if none does.  The filter returns for
    every threshold below [2^1024 - 2^970]; from there on the product of
    line 42 can raise OverflowError, which is the only way the filter
    fails, and then no rule holds for any pixel and nothing is written. *)
Theorem filter_zeroes_iff_rule (img : image) (T : Z) :
  wf_image img ->
  (T < int_limit -> succeeds (remove_white_edges img T))
  /\ (forall img' n,
        remove_white_edges img T = Ok (img', n) ->
        forall x y, (x < width img)%nat -> (y < height img)%nat ->
          exists p, pixel_at img x y = Some p
            /\ (Rules.any T p -> pixel_at img' x y = Some transparent)
            /\ (~ Rules.any T p -> pixel_at img' x y = Some p))
  /\ (forall e,
        remove_white_edges img T = Raise e ->
        e = OverflowError /\ int_limit <= T
        /\ forall x y p, pixel_at img x y = Some p -> ~ Rules.any T p).
Proof.
  intros Hwf. split; [apply remove_white_edges_total; assumption|]. split.
  - destruct Hwf as [Hlen Hpx]. intros img' n H.
    destruct (remove_white_edges_inv img T img' n Hlen H) as (qs & Hs & ->).
    intros x y Hx Hy. unfold pixel_at. cbn [width pixels].
    pose proof (offset_in_range _ _ x y Hx Hy) as Hoff. rewrite <- Hlen in Hoff.
    destruct (lookup_lt_is_Some_2 _ _ Hoff) as [p Hp].
    destruct (Forall2_lookup_l _ _ _ _ _ (sweep_pixels T _ _ _ Hs) Hp) as (q & Hq & Hrew).
    pose proof (proj1 (Forall_lookup _ _) Hpx _ _ Hp) as Hwfp.
    destruct (rewritten_by_rule T p q Hwfp Hrew) as [Hyes Hno].
    exists p. split; [assumption|]. split.
    + intros Hany. rewrite Hq, (Hyes Hany). reflexivity.
    + intros Hnone. rewrite Hq, (Hno Hnone). reflexivity.
  - intros e H. destruct (remove_white_edges_raises img T e Hwf H) as [He Hlim].
    split; [assumption|]. split; [assumption|].
    intros x y p Hp Hany. destruct Hwf as [_ Hpx].
    pose proof (proj1 (Forall_lookup _ _) Hpx _ _ Hp) as Hwfp.
    pose proof (any_converts T p Hwfp Hany). lia.
Qed.

Lemma square_rules_instance :
  (240 < int_limit -> succeeds (remove_white_edges square 240))
  /\ (forall img' n,
        remove_white_edges square 240 = Ok (img', n) ->
        forall x y, (x < width square)%nat -> (y < height square)%nat ->
          exists p, pixel_at square x y = Some p
            /\ (Rules.any 240 p -> pixel_at img' x y = Some transparent)
            /\ (~ Rules.any 240 p -> pixel_at img' x y = Some p))
  /\ (forall e,
        remove_white_edges square 240 = Raise e ->
        e = OverflowError /\ int_limit <= 240
        /\ forall x y p, pixel_at square x y = Some p -> ~ Rules.any 240 p).
Proof.
  apply (filter_zeroes_iff_rule square 240).
  split; [reflexivity|].
  unfold square; cbn [pixels]. repeat constructor; simpl; lia.
Defined.

Lemma count_ext_on {A : Type} (P : A -> Prop) (f g : A -> bool) xs :
  Forall P xs -> (forall x, P x -> f x = g x) -> count f xs = count g xs.
Proof.
  intros HP Hfg. induction HP as [| x xs Hx _ IH]; [reflexivity|].
  cbn [count]. rewrite (Hfg x Hx), IH. reflexivity.
Qed.

Lemma any_without_hard T p :
  Rules.any T p <-> Rules.average T p \/ Rules.translucent T p.
Proof.
  unfold Rules.any. split; [|tauto].
  intros [Hh | H]; [|assumption]. left.
  apply average_iff. unfold Rules.hard, rgb_sum in *. lia.
Qed.

(** C10. Rule 1 is redundant for the output.  Whenever
    [r >= T and g >= T and b >= T] then also [(r + g + b) / 3 >= T], in
    exact arithmetic and, for 8-bit channels, in the floats of line 38.
    So on every RGBA image the filter returns [(0, 0, 0, 0)] exactly at
    the pixels for which rule 2 or rule 3 holds and the input pixel
    everywhere else, and the count it returns is the number of pixels for
    which rule 2 or rule 3 holds.  Rule 1 decides only which branch does
    the overwriting and the counting: the first exactly when rule 1 holds,
    and without the first branch the second one would be taken there. *)
Theorem rule1_redundant_for_output (img : image) (T : Z) :
  wf_image img ->
  (forall p, Rules.hard T p -> Rules.average T p)
  /\ (forall x y p, pixel_at img x y = Some p ->
        (hard_white T p = true -> average_white T p = Ok true)
        /\ (classify T p = Ok (Some HardWhite) <-> Rules.hard T p)
        /\ (Rules.hard T p ->
            classify_without_hard_white T p = Ok (Some AverageWhite)))
  /\ (T < int_limit -> succeeds (remove_white_edges img T))
  /\ (forall img' n,
        remove_white_edges img T = Ok (img', n) ->
        n = Z.of_nat (average_or_translucent_matches T img)
        /\ forall x y, (x < width img)%nat -> (y < height img)%nat ->
             exists p, pixel_at img x y = Some p
               /\ (Rules.average T p \/ Rules.translucent T p ->
                   pixel_at img' x y = Some transparent)
               /\ (~ (Rules.average T p \/ Rules.translucent T p) ->
                   pixel_at img' x y = Some p)).
Proof.
  intros Hwf.
  assert (H12 : forall p, Rules.hard T p -> Rules.average T p).
  { intros p Hh. apply average_iff. unfold Rules.hard, rgb_sum in *. lia. }
  split; [exact H12|]. split.
  { intros x y p Hp. destruct Hwf as [_ Hpx].
    pose proof (proj1 (Forall_lookup _ _) Hpx _ _ Hp) as Hwfp.
    destruct (chain_without_rule1 T p Hwfp) as (_ & Hfl & _ & Hchain).
    split; [exact Hfl|]. split.
    - unfold classify. split.
      + intros Hc. apply hard_white_iff.
        destruct (hard_white T p); [reflexivity|].
        destruct (average_white T p) as [[|] | e]; cbn [bind] in Hc; try discriminate.
        destruct (translucent_bright T p) as [[|] | e]; discriminate.
      + intros Hh. apply hard_white_iff in Hh. rewrite Hh. reflexivity.
    - intros Hh. rewrite Hchain. unfold classify.
      apply hard_white_iff in Hh. rewrite Hh. reflexivity. }
  split; [apply remove_white_edges_total; assumption|].
  destruct Hwf as [Hlen Hpx]. intros img' n H.
  destruct (remove_white_edges_inv img T img' n Hlen H) as (qs & Hs & ->).
  split.
  - rewrite (sweep_count T _ _ _ Hs). unfold average_or_translucent_matches. f_equal.
    apply (count_ext_on wf_pixel); [assumption|].
    intros p Hwfp.
    destruct (decide (Rules.average T p \/ Rules.translucent T p)) as [Hyes | Hno].
    + rewrite bool_decide_eq_true_2 by assumption.
      apply matched_iff; [assumption|]. apply any_without_hard. assumption.
    + rewrite bool_decide_eq_false_2 by assumption.
      destruct (is_matched T p) eqn:E; [|reflexivity].
      apply matched_iff in E; [|assumption]. apply any_without_hard in E. contradiction.
  - intros x y Hx Hy. unfold pixel_at. cbn [width pixels].
    pose proof (offset_in_range _ _ x y Hx Hy) as Hoff. rewrite <- Hlen in Hoff.
    destruct (lookup_lt_is_Some_2 _ _ Hoff) as [p Hp].
    destruct (Forall2_lookup_l _ _ _ _ _ (sweep_pixels T _ _ _ Hs) Hp) as (q & Hq & Hrew).
    pose proof (proj1 (Forall_lookup _ _) Hpx _ _ Hp) as Hwfp.
    destruct (rewritten_by_rule T p q Hwfp Hrew) as [Hyes Hno].
    exists p. split; [assumption|]. split.
    + intros H23. rewrite Hq, Hyes; [reflexivity|]. apply any_without_hard. assumption.
    + intros Hnone. rewrite Hq, Hno; [reflexivity|].
      intros Hany. apply Hnone. apply any_without_hard. assumption.
Qed.

Lemma square_rule1_instance :
  (forall p, Rules.hard 240 p -> Rules.average 240 p)
  /\ (forall x y p, pixel_at square x y = Some p ->
        (hard_white 240 p = true -> average_white 240 p = Ok true)
        /\ (classify 240 p = Ok (Some HardWhite) <-> Rules.hard 240 p)
        /\ (Rules.hard 240 p ->
            classify_without_hard_white 240 p = Ok (Some AverageWhite)))
  /\ (240 < int_limit -> succeeds (remove_white_edges square 240))
  /\ (forall img' n,
        remove_white_edges square 240 = Ok (img', n) ->
        n = Z.of_nat (average_or_translucent_matches 240 square)
        /\ forall x y, (x < width square)%nat -> (y < height square)%nat ->
             exists p, pixel_at square x y = Some p
               /\ (Rules.average 240 p \/ Rules.translucent 240 p ->
                   pixel_at img' x y = Some transparent)
               /\ (~ (Rules.average 240 p \/ Rules.translucent 240 p) ->
                   pixel_at img' x y = Some p)).
Proof.
  apply (rule1_redundant_for_output square 240).
  split; [reflexivity|].
  unfold square; cbn [pixels]. repeat constructor; simpl; lia.
Defined.

(** X10. For thresholds below [2^1024 - 2^970], two runs compose to one
    run at the lower threshold: the filter at [T2] on the output of the
    filter at [T1] returns the image that the filter returns on the input
    at [min T1 T2], and so does the filter at [T1] on the output of the
    filter at [T2]; all five runs return. *)
Theorem two_runs_compose_to_the_minimum (img : image) (T1 T2 : Z) :
  wf_image img ->
  T1 < int_limit ->
  T2 < int_limit ->
  exists out1 n1 out2 n2 final m1 m2 n3,
    remove_white_edges img T1 = Ok (out1, n1)
    /\ remove_white_edges out1 T2 = Ok (final, m1)
    /\ remove_white_edges img T2 = Ok (out2, n2)
    /\ remove_white_edges out2 T1 = Ok (final, m2)
    /\ remove_white_edges img (Z.min T1 T2) = Ok (final, n3).
Proof.
  intros Hwf H1 H2.
  destruct (remove_white_edges_total img T1 Hwf H1) as [[out1 n1] Ha].
  destruct (remove_white_edges_total img T2 Hwf H2) as [[out2 n2] Hb].
  pose proof (remove_white_edges_wf img T1 out1 n1 Hwf Ha) as Hwf1.
  pose proof (remove_white_edges_wf img T2 out2 n2 Hwf Hb) as Hwf2.
  destruct (remove_white_edges_total out1 T2 Hwf1 H2) as [[fin1 m1] Hc].
  destruct (remove_white_edges_total out2 T1 Hwf2 H1) as [[fin2 m2] Hd].
  destruct (two_returning_runs_compose img T1 T2 out1 fin1 n1 m1 Hwf Ha Hc) as [n3 He].
  destruct (two_returning_runs_compose img T2 T1 out2 fin2 n2 m2 Hwf Hb Hd) as [n4 Hf].
  rewrite Z.min_comm in Hf.
  assert (fin2 = fin1) by congruence. subst fin2.
  exists out1, n1, out2, n2, fin1, m1, m2, n3. auto.
Qed.

Lemma square_240_and_251_compose :
  exists out1 n1 out2 n2 final m1 m2 n3,
    remove_white_edges square 240 = Ok (out1, n1)
    /\ remove_white_edges out1 251 = Ok (final, m1)
    /\ remove_white_edges square 251 = Ok (out2, n2)
    /\ remove_white_edges out2 240 = Ok (final, m2)
    /\ remove_white_edges square (Z.min 240 251) = Ok (final, n3).
Proof.
  apply (two_runs_compose_to_the_minimum square 240 251).
  - split; [reflexivity|]. unfold square; cbn [pixels]. repeat constructor; simpl; lia.
  - reflexivity.
  - reflexivity.
Defined.

(** At a threshold that does not convert the composition can fail where
    the single run does not: after a run at 240 that made a pixel
    transparent, a run at [2^1024 - 2^970] raises, while that run on the
    all-opaque input returns. *)
Remark composition_needs_convertible_thresholds :
  remove_white_edges (Image 1 1 [Pixel 255 255 255 255]) 240
  = Ok (Image 1 1 [Pixel 0 0 0 0], 1)
  /\ remove_white_edges (Image 1 1 [Pixel 0 0 0 0]) int_limit = Raise OverflowError
  /\ remove_white_edges (Image 1 1 [Pixel 255 255 255 255]) int_limit
     = Ok (Image 1 1 [Pixel 255 255 255 255], 0).
Proof. split; [|split]; vm_compute; reflexivity. Qed.

(** * Further properties of the command line *)

Section CommandLine.
Variable parse_int : string -> result Z.
Variable decode : list Byte.byte -> result image.
Variable save :
  image -> string -> gmap string (list Byte.byte) ->
  gmap string (list Byte.byte) * result unit.
Variable print_raises : CLI.message -> option exn.


(** [print(text); sys.exit(1)]: status 1, no file touched, and either
    the line on standard output or the report of what [print] raised on
    standard error. *)
Lemma print_and_exit_1_ends m w :
  (CLI.print_and_exit_1 print_raises m w).1 = 1
  /\ CLI.files (CLI.print_and_exit_1 print_raises m w).2 = CLI.files w
  /\ (print_raises m = None ->
      (CLI.print_and_exit_1 print_raises m w).2
      = CLI.World (CLI.files w) (CLI.stdout w ++ [m]) (CLI.stderr w))
  /\ (forall e, print_raises m = Some e ->
      (CLI.print_and_exit_1 print_raises m w).2
      = CLI.World (CLI.files w) (CLI.stdout w) (CLI.stderr w ++ [CLI.Traceback e])).
Proof.
  unfold CLI.print_and_exit_1, CLI.print.
  destruct (print_raises m) as [e |]; cbn; repeat split; try discriminate; try reflexivity.
  intros e' [= ->]. reflexivity.
Qed.





End CommandLine.







(** X14. If [save] leaves every path but its own as it was, then so does
    the script, whatever its arguments and however it ends: no file other
    than the output path, [sys.argv[2]] or else the input path, is created
    or modified. *)
Theorem only_output_path_written
    (parse_int : string -> result Z)
    (decode : list Byte.byte -> result image)
    (save : image -> string -> gmap string (list Byte.byte) ->
            gmap string (list Byte.byte) * result unit)
    (print_raises : CLI.message -> option exn)
    (prog input : string) (rest : list string) (w : CLI.world) (q : string) :
  writes_only_its_path save ->
  q <> argv_output input rest ->
  CLI.files (CLI.main parse_int decode save print_raises (prog :: input :: rest) w).2 !! q
  = CLI.files w !! q.
Proof.
  intros Hsave Hq. unfold CLI.main.
  destruct (match rest !! 1%nat with Some s => parse_int s | None => Ok 240 end)
    as [T | e]; [|reflexivity].
  destruct (CLI.exists_path input w).
  2:{ rewrite (proj1 (proj2 (print_and_exit_1_ends print_raises _ w))). reflexivity. }
  unfold CLI.remove_white_edges_at. fold (argv_output input rest).
  destruct (CLI.files w !! input) as [data |].
  2:{ rewrite (proj1 (proj2 (print_and_exit_1_ends print_raises _ w))). reflexivity. }
  destruct (decode data) as [img | e].
  2:{ rewrite (proj1 (proj2 (print_and_exit_1_ends print_raises _ w))). reflexivity. }
  destruct (remove_white_edges img T) as [[img' n] | e].
  2:{ rewrite (proj1 (proj2 (print_and_exit_1_ends print_raises _ w))). reflexivity. }
  specialize (Hsave img' (argv_output input rest) (CLI.files w) q Hq).
  destruct (save img' (argv_output input rest) (CLI.files w)) as [fs [[] | e]];
    cbn [fst] in Hsave.
  - unfold CLI.print at 1. cbn [CLI.files CLI.stdout CLI.stderr].
    destruct (print_raises (CLI.Done n)) as [e |].
    { rewrite (proj1 (proj2 (print_and_exit_1_ends print_raises _ _))). exact Hsave. }
    unfold CLI.print at 1. cbn [CLI.files CLI.stdout CLI.stderr].
    destruct (print_raises (CLI.Saved (argv_output input rest))) as [e |].
    { rewrite (proj1 (proj2 (print_and_exit_1_ends print_raises _ _))). exact Hsave. }
    exact Hsave.
  - rewrite (proj1 (proj2 (print_and_exit_1_ends print_raises _ _))). exact Hsave.
Qed.

Lemma other_file_untouched_instance :
  CLI.files (CLI.main (fun _ => Ok 240) (fun _ => Ok square) save_anywhere (fun _ => None)
               ["remove-white-edges.py"; "in.png"; "out.png"]
               (CLI.World {["in.png" := []]} [] [])).2 !! "in.png"
  = CLI.files (CLI.World {["in.png" := []]} [] []) !! "in.png".
Proof.
  apply (only_output_path_written (fun _ => Ok 240) (fun _ => Ok square) save_anywhere
           (fun _ => None) "remove-white-edges.py" "in.png" ["out.png"]
           (CLI.World {["in.png" := []]} [] []) "in.png").
  - intros img path fs q Hne. unfold save_anywhere. simpl.
    apply lookup_insert_ne. congruence.
  - discriminate.
Defined.







